(** * open3d_lidar.py: the per-frame LIDAR decoding pipeline

    A shallow embedding of [CARLA Scripts/open3d_lidar.py]: the two sensor
    callbacks ([lidar_callback], [semantic_lidar_callback]), the palette
    tables they read, the actor colour table built by [main], and the body
    of [main]'s render/record loop.

    Numbers are IEEE 754 values ([spec_float] of the standard library, with
    its executable arithmetic): [np.float32] samples are binary32 values,
    colours and Open3D vectors are binary64 values.  NumPy calls are given
    the meaning NumPy documents for them, errors included. *)

From Stdlib Require Import ZArith List Bool Lia ZifyNat Sorted.
From Stdlib Require Import Strings.Byte Floats.SpecFloat.
From stdpp Require Import base option list gmap strings.

Open Scope Z_scope.

(** [lia] reasons about division and remainder by the stride constants. *)
Ltac Zify.zify_post_hook ::= Z.to_euclidean_division_equations.

(* ================================================================= *)
(** ** IEEE 754 values *)

Module F32.
Definition prec := 24.
Definition emax := 128.
Definition one : spec_float := binary_normalize prec emax 1 0 false.
Definition opp := SFopp.
Definition sub := SFsub prec emax.
Definition div := SFdiv prec emax.
End F32.

Module F64.
Definition prec := 53.
Definition emax := 1024.
Definition of_Z (k : Z) : spec_float := binary_normalize prec emax k 0 false.
Definition zero : spec_float := S754_zero false.
Definition one : spec_float := of_Z 1.
Definition opp := SFopp.
Definition add := SFadd prec emax.
Definition sub := SFsub prec emax.
Definition mul := SFmul prec emax.
Definition div := SFdiv prec emax.
Definition eqb := SFeqb.
Definition ltb := SFltb.
Definition leb := SFleb.
End F64.

Definition is_nan (x : spec_float) : bool :=
  match x with S754_nan => true | _ => false end.

(** Widening a binary32 value to binary64 (what [Vector3dVector] and
    [np.interp] do with a float32 array), and the narrowing of a binary64
    value to binary32 (what NumPy's value-based casting does with a
    float64 scalar that meets a float32 array).  Widening is exact. *)
Definition f64_of_f32 (x : spec_float) : spec_float :=
  match x with
  | S754_finite s m e => binary_round F64.prec F64.emax s m e
  | _ => x
  end.

Definition f32_of_f64 (x : spec_float) : spec_float :=
  match x with
  | S754_finite s m e => binary_round F32.prec F32.emax s m e
  | _ => x
  end.

(** [0.0 <= x <= 1.0] on binary64 values; false on NaN. *)
Definition in_unit (x : spec_float) : bool :=
  F64.leb F64.zero x && F64.leb x F64.one.

Definition is_finite (v : spec_float) : bool :=
  match v with
  | S754_zero _ | S754_finite _ _ _ => true
  | _ => false
  end.

Definition is_zero (v : spec_float) : bool :=
  match v with
  | S754_zero _ => true
  | _ => false
  end.

Definition negative_finite (v : spec_float) : bool :=
  match v with
  | S754_finite true _ _ => true
  | _ => false
  end.

(** NaN, or below zero (minus zero is not). *)
Definition negative_or_nan (v : spec_float) : bool :=
  match v with
  | S754_nan | S754_infinity true | S754_finite true _ _ => true
  | _ => false
  end.

(* ================================================================= *)
(** ** Raw payloads: little-endian words *)

Definition byte_val (b : Byte.byte) : Z := Z.of_N (Byte.to_N b).

(** The unsigned integer a little-endian byte string denotes. *)
Definition le_uint (bs : list Byte.byte) : Z :=
  fold_right (fun b acc => byte_val b + 256 * acc) 0 bs.

(** The binary32 value of a 32-bit pattern: sign bit 31, biased exponent
    bits 30..23, fraction bits 22..0. *)
Definition f32_of_bits (w : Z) : spec_float :=
  let s := Z.testbit w 31 in
  let e := Z.land (Z.shiftr w 23) 255 in
  let f := Z.land w (2 ^ 23 - 1) in
  if e =? 255 then (if f =? 0 then S754_infinity s else S754_nan)
  else if e =? 0 then
    match f with Zpos p => S754_finite s p (-149) | _ => S754_zero s end
  else
    match f + 2 ^ 23 with
    | Zpos p => S754_finite s p (e - 150)
    | _ => S754_nan
    end.

(** The bit pattern of a binary32 value (NaN as the quiet NaN). *)
Definition bits_of_f32 (x : spec_float) : Z :=
  let sign (s : bool) := if s then 2 ^ 31 else 0 in
  match x with
  | S754_zero s => sign s
  | S754_infinity s => sign s + 255 * 2 ^ 23
  | S754_nan => 255 * 2 ^ 23 + 2 ^ 22
  | S754_finite s m e =>
      if Zpos m <? 2 ^ 23 then sign s + Zpos m
      else sign s + (e + 150) * 2 ^ 23 + (Zpos m - 2 ^ 23)
  end.

Definition byte_of_Z (z : Z) : Byte.byte :=
  default Byte.x00 (Byte.of_N (Z.to_N (z mod 256))).

Definition le_bytes32 (w : Z) : list Byte.byte :=
  [byte_of_Z w; byte_of_Z (w / 2 ^ 8); byte_of_Z (w / 2 ^ 16); byte_of_Z (w / 2 ^ 24)].

(** Element [i] of a buffer seen as an array of [k]-byte items. *)
Definition item (k : nat) (bs : list Byte.byte) (i : nat) : list Byte.byte :=
  take k (drop (i * k) bs).

Definition items (k : nat) (bs : list Byte.byte) : list (list Byte.byte) :=
  map (item k bs) (seq 0 (length bs / k)%nat).

(* ================================================================= *)
(** ** Exceptions *)

(** The exceptions NumPy raises in the callbacks.  A callback returns
    [inl e] when it raises [e] and [inr w] when it returns in world [w]. *)
Inductive exn := ValueError | IndexError.

Definition result (A : Type) : Type := exn + A.

Definition bind {A B} (r : result A) (k : A -> result B) : result B :=
  match r with
  | inl e => inl e
  | inr a => k a
  end.

Notation "'let*' x ':=' e 'in' k" := (bind e (fun x => k))
  (at level 10, x pattern, e at level 100, k at level 200).

(* ================================================================= *)
(** ** The objects the callbacks share *)

Definition vec3 : Type := spec_float * spec_float * spec_float.

Definition in_unit3 (c : vec3) : bool := in_unit c.1.1 && in_unit c.1.2 && in_unit c.2.

Definition nan3 : vec3 := (S754_nan, S754_nan, S754_nan).

(** [o3d.geometry.PointCloud]: positions and colours. *)
Record PointCloud := { points : list vec3; colors : list vec3 }.

(** A NumPy array of [f4] is a handle on memory: either the view that
    [np.frombuffer] lays over the sensor payload, or an array that owns a
    block of the heap. *)
Inductive ndarray := FromBuffer | Owned (a : nat).

(** The mutable objects of a run: the payload of the measurement being
    delivered ([point_cloud.raw_data]), the memory of the arrays NumPy
    allocated, the point cloud shared with the renderer ([point_list]) and
    the table of actor colours ([actor_colors]). *)
Record world := {
  raw_data : list Byte.byte;
  heap : list (list spec_float);
  point_list : PointCloud;
  actor_colors : gmap Z vec3
}.

(** The state a callback leaves behind: the world it returned, or the
    world it was called in when it raised. *)
Definition after (r : result world) (w : world) : world :=
  match r with
  | inr w' => w'
  | inl _ => w
  end.

(** [o3d.utility.Vector3dVector]: a vector of double-precision triples. *)
Definition Vector3dVector (widen : spec_float -> spec_float) (rows : list vec3) : list vec3 :=
  map (fun '(x, y, z) => (widen x, widen y, widen z)) rows.

(* ================================================================= *)
(** ** NumPy over the shared memory *)

(** The [f4] items of a payload. *)
Definition f4_items (bs : list Byte.byte) : list spec_float :=
  map (fun it => f32_of_bits (le_uint it)) (items 4 bs).

(** The contents an array handle denotes in a world. *)
Definition contents (w : world) (h : ndarray) : list spec_float :=
  match h with
  | FromBuffer => f4_items (raw_data w)
  | Owned a => default [] (heap w !! a)
  end.

(** [np.frombuffer(raw_data, dtype)]: a view, no copy; [ValueError] when
    the buffer size is not a multiple of the item size. *)
Definition np_frombuffer (itemsize : nat) (w : world) : result ndarray :=
  if (length (raw_data w) mod itemsize =? 0)%nat then inr FromBuffer
  else inl ValueError.

(** [np.copy(a)]: a fresh block holding the contents of [a]. *)
Definition np_copy (h : ndarray) (w : world) : ndarray * world :=
  (Owned (length (heap w)),
   {| raw_data := raw_data w;
      heap := heap w ++ [contents w h];
      point_list := point_list w;
      actor_colors := actor_colors w |}).

(** [np.reshape(data, (int(data.shape[0] / 4), 4))]: the same memory seen
    as rows of four; [ValueError] when the sizes differ.  (The quotient
    [data.shape[0] / 4] is a Python float; it is exact below 2^53.) *)
Definition np_reshape4 (w : world) (h : ndarray) : result ndarray :=
  let n := length (contents w h) in
  if ((n / 4) * 4 =? n)%nat then inr h else inl ValueError.

(** The rows of a flat array of shape (n, 4). *)
Fixpoint rows4 (flat : list spec_float) : list (spec_float * spec_float * spec_float * spec_float) :=
  match flat with
  | a :: b :: c :: d :: rest => (a, b, c, d) :: rows4 rest
  | _ => []
  end.

(** Writing the whole contents of an array through its handle: into the
    heap block it owns, or, for the [np.frombuffer] view, into the bytes
    of the payload it shares. *)
Definition write (h : ndarray) (flat : list spec_float) (w : world) : world :=
  match h with
  | Owned a =>
      {| raw_data := raw_data w;
         heap := <[a := flat]> (heap w);
         point_list := point_list w;
         actor_colors := actor_colors w |}
  | FromBuffer =>
      {| raw_data := concat (map (fun x => le_bytes32 (bits_of_f32 x)) flat);
         heap := heap w;
         point_list := point_list w;
         actor_colors := actor_colors w |}
  end.

(** The slice assignment [a[:, :1] = col]: element 0 of row [r] becomes
    [col[r]], every other element stays. *)
Definition assign_col0 (col : list spec_float) (flat : list spec_float) : list spec_float :=
  imap (fun i v => if (i mod 4 =? 0)%nat then default v (col !! (i / 4)%nat) else v) flat.

Definition set_col0 (h : ndarray) (col : list spec_float) (w : world) : world :=
  write h (assign_col0 col (contents w h)) w.

Definition set_point_list (pc : PointCloud) (w : world) : world :=
  {| raw_data := raw_data w;
     heap := heap w;
     point_list := pc;
     actor_colors := actor_colors w |}.

(* ================================================================= *)
(** ** The class palette *)

Definition black : vec3 := (F64.zero, F64.zero, F64.zero).

(** [np.array([...]) / 255.0]: every channel divided by 255 in binary64. *)
Definition normalize (rgb : Z * Z * Z) : vec3 :=
  let '(r, g, b) := rgb in
  (F64.div (F64.of_Z r) (F64.of_Z 255),
   F64.div (F64.of_Z g) (F64.of_Z 255),
   F64.div (F64.of_Z b) (F64.of_Z 255)).

Definition LABEL_COLORS_0 : list vec3 :=
  map normalize [
    (255, 255, 255); (* None [0] *)
    (128, 64, 128);  (* Roads [1] *)
    (244, 35, 232);  (* Sidewalks [2] *)
    (70, 70, 70);    (* Buildings [3] *)
    (102, 102, 156); (* Walls [4] *)
    (100, 40, 40);   (* Fences [5] *)
    (153, 153, 153); (* Poles [6] *)
    (250, 170, 30);  (* TrafficLight [7] *)
    (220, 220, 0);   (* TrafficSigns [8] *)
    (107, 142, 35);  (* Vegetation [9] *)
    (145, 170, 100); (* Terrain [10] *)
    (70, 130, 180);  (* Sky [11] *)
    (220, 20, 60);   (* Pedestrians [12] *)
    (255, 0, 0);     (* Rider [13] *)
    (0, 0, 142);     (* Car [14] *)
    (0, 60, 100);    (* Truck [15] *)
    (0, 80, 100);    (* Bus [16] *)
    (0, 0, 230);     (* Train [17] *)
    (119, 11, 32);   (* Motorcycle [18] *)
    (81, 0, 81);     (* Bicycle [19] *)
    (110, 190, 160); (* Static [20] *)
    (170, 120, 50);  (* Dynamic [21] *)
    (55, 90, 80);    (* Other [22] *)
    (45, 60, 150);   (* Water [23] *)
    (157, 234, 50);  (* RoadLines [24] *)
    (81, 0, 81);     (* Ground [25] *)
    (150, 100, 100); (* Bridge [26] *)
    (230, 150, 140); (* RailTrack [27] *)
    (180, 165, 180)  (* GuardRail [28] *)
  ].

(** The table after the module-level assignments
    [LABEL_COLORS[i] = [0.0, 0.0, 0.0]] that disable classes. *)
Definition LABEL_COLORS : list vec3 :=
  <[27%nat := black]> (<[26%nat := black]> (<[24%nat := black]> (<[11%nat := black]>
  (<[10%nat := black]> (<[2%nat := black]> (<[1%nat := black]> (<[0%nat := black]>
   LABEL_COLORS_0))))))).

(** [table[idx]] with an integer index array: one row per index,
    [IndexError] when an index is out of bounds.  (The indices are
    unsigned, so none counts from the end.) *)
Fixpoint take_rows (table : list vec3) (idx : list Z) : result (list vec3) :=
  match idx with
  | [] => inr []
  | i :: rest =>
      match table !! Z.to_nat i with
      | None => inl IndexError
      | Some c => let* cs := take_rows table rest in inr (c :: cs)
      end
  end.

(* ================================================================= *)
(** ** The semantic decoder *)

(** One item of the structured dtype
    [x, y, z, CosAngle : float32; ObjIdx, ObjTag : uint32] (24 bytes). *)
Record SemanticSample := {
  x : spec_float;
  y : spec_float;
  z : spec_float;
  CosAngle : spec_float;
  ObjIdx : Z;
  ObjTag : Z
}.

Definition field (off : nat) (it : list Byte.byte) : Z :=
  le_uint (take 4 (drop off it)).

Definition sample_of_item (it : list Byte.byte) : SemanticSample :=
  {| x := f32_of_bits (field 0 it);
     y := f32_of_bits (field 4 it);
     z := f32_of_bits (field 8 it);
     CosAngle := f32_of_bits (field 12 it);
     ObjIdx := field 16 it;
     ObjTag := field 20 it |}.

(** The records a payload holds. *)
Definition samples (bs : list Byte.byte) : list SemanticSample :=
  map sample_of_item (items 24 bs).

(** [np.unique]: the sorted distinct values. *)
Fixpoint insert_sorted (a : Z) (l : list Z) : list Z :=
  match l with
  | [] => [a]
  | b :: r =>
      if a <? b then a :: l
      else if a =? b then l
      else b :: insert_sorted a r
  end.

Definition np_unique (l : list Z) : list Z := fold_right insert_sorted [] l.

(** [a[mask] = c]: the rows the mask selects become [c]. *)
Definition mask_assign {A} (mask : list bool) (c : A) (a : list A) : list A :=
  zip_with (fun (b : bool) v => if b then c else v) mask a.

(** [a[mask]]: the rows the mask selects, in order. *)
Fixpoint mask_select {A} (mask : list bool) (a : list A) : list A :=
  match mask, a with
  | b :: mask', v :: a' => if b then v :: mask_select mask' a' else mask_select mask' a'
  | _, _ => []
  end.

(** [np.all(c == [0.0, 0.0, 0.0])]: IEEE equality, channel by channel. *)
Definition is_black (c : vec3) : bool :=
  let '(r, g, b) := c in
  F64.eqb r F64.zero && F64.eqb g F64.zero && F64.eqb b F64.zero.

(** The loop [for actor_id in unique_actor_ids]: the rows of an actor
    found in the table take the actor's colour. *)
Definition override (tbl : gmap Z vec3) (ids : list Z) (int_color : list vec3) (actor_id : Z) : list vec3 :=
  match tbl !! actor_id with
  | Some c => mask_assign (map (fun i => i =? actor_id) ids) c int_color
  | None => int_color
  end.

Definition semantic_lidar_callback (w : world) : result world :=
  let* _ := np_frombuffer 24 w in
  let data := samples (raw_data w) in
  let points := map (fun s => (x s, F32.opp (y s), z s)) data in
  let labels := map ObjTag data in
  let* int_color := take_rows LABEL_COLORS labels in
  let unique_actor_ids := np_unique (map ObjIdx data) in
  let int_color :=
    fold_left (override (actor_colors w) (map ObjIdx data)) unique_actor_ids int_color in
  let mask := map (fun c => negb (is_black c)) int_color in
  let points := mask_select mask points in
  let int_color := mask_select mask int_color in
  inr (set_point_list
         {| points := Vector3dVector f64_of_f32 points;
            colors := Vector3dVector id int_color |} w).

(* ================================================================= *)
(** ** The intensity decoder *)

(** [np.log] at the values IEEE 754 fixes (NaN for a NaN or a negative
    argument, minus infinity at either zero, plus infinity at plus
    infinity); [ln] gives the library's result at a positive finite
    argument [m * 2^e]. *)
Definition np_log (ln : positive -> Z -> spec_float) (v : spec_float) : spec_float :=
  match v with
  | S754_nan => S754_nan
  | S754_zero _ => S754_infinity true
  | S754_infinity false => S754_infinity false
  | S754_infinity true => S754_nan
  | S754_finite true _ _ => S754_nan
  | S754_finite false m e => ln m e
  end.

(** [np.linspace(0.0, 1.0, num)]: [num] samples [i * step + start] with
    [step = (stop - start) / (num - 1)], the last one set to [stop]. *)
Definition np_linspace01 (num : nat) : list spec_float :=
  let div := (num - 1)%nat in
  let delta := F64.sub F64.one F64.zero in
  let step := F64.div delta (F64.of_Z (Z.of_nat div)) in
  map (fun i : nat =>
         if (1 <? num)%nat && (i =? div)%nat then F64.one
         else
           let yi := F64.of_Z (Z.of_nat i) in
           let scaled :=
             if (0 <? div)%nat then
               if F64.eqb step F64.zero
               then F64.mul (F64.div yi (F64.of_Z (Z.of_nat div))) delta
               else F64.mul yi step
             else F64.mul yi delta in
           F64.add scaled F64.zero)
      (seq 0 num).

(** The index search of [np.interp]: [len] when the key is above the last
    sample point, -1 when it is below the first, else the [j] with
    [arr[j] <= key < arr[j+1]], found here by the linear scan NumPy uses
    on short arrays (on a sorted array its bisection finds the same [j]). *)
Fixpoint scan (key : spec_float) (arr : list spec_float) (i : nat) : nat :=
  match arr with
  | [] => i
  | a :: rest => if F64.leb a key then scan key rest (S i) else i
  end.

Definition binary_search (key : spec_float) (arr : list spec_float) : Z :=
  if F64.ltb (List.last arr S754_nan) key then Z.of_nat (length arr)
  else if F64.ltb key (hd S754_nan arr) then -1
  else Z.of_nat (scan key (tl arr) 0).

(** One element of [np.interp(x, xp, fp)]. *)
Definition interp1 (xp fp : list spec_float) (v : spec_float) : spec_float :=
  let dx j := nth j xp S754_nan in
  let dy j := nth j fp S754_nan in
  let len := Z.of_nat (length xp) in
  if is_nan v then v
  else
    let j := binary_search v xp in
    if j =? -1 then dy 0%nat
    else if j =? len then dy (Z.to_nat (len - 1))
    else if j =? len - 1 then dy (Z.to_nat j)
    else
      let j := Z.to_nat j in
      if F64.eqb (dx j) v then dy j
      else
        let slope := F64.div (F64.sub (dy (S j)) (dy j)) (F64.sub (dx (S j)) (dx j)) in
        let r := F64.add (F64.mul slope (F64.sub v (dx j))) (dy j) in
        if is_nan r then
          let r' := F64.add (F64.mul slope (F64.sub v (dx (S j)))) (dy (S j)) in
          if is_nan r' && F64.eqb (dy j) (dy (S j)) then dy j else r'
        else r.

(** [np.interp]: [ValueError] on an empty array of sample points or on
    [xp] and [fp] of different lengths. *)
Definition np_interp (vs xp fp : list spec_float) : result (list spec_float) :=
  if (length xp =? 0)%nat then inl ValueError
  else if negb (length fp =? length xp)%nat then inl ValueError
  else inr (map (interp1 xp fp) vs).

(** [np.c_[r, g, b]]: the three columns side by side. *)
Definition np_c_ (r g b : list spec_float) : list vec3 :=
  zip_with (fun r gb => (r, gb.1, gb.2)) r (zip g b).

Section Intensity.

(** The C library's [exp] and [log] on doubles and [logf] on floats,
    the latter two at positive finite arguments. *)
Variable libm_exp : spec_float -> spec_float.
Variable libm_log : positive -> Z -> spec_float.
Variable libm_logf : positive -> Z -> spec_float.

(** [cm.get_cmap('plasma').colors]: matplotlib's table, one RGB row per
    ramp entry (256 rows in matplotlib). *)
Variable VIRIDIS : list vec3.

Definition VID_RANGE : list spec_float := np_linspace01 (length VIRIDIS).

(** [np.log(np.exp(-0.004 * 100))], a double. *)
Definition log_attenuation : spec_float :=
  np_log libm_log
    (libm_exp (F64.mul (F64.opp (F64.div (F64.of_Z 4) (F64.of_Z 1000))) (F64.of_Z 100))).

(** [1.0 - np.log(intensity) / np.log(np.exp(-0.004 * 100))] on one
    float32 sample.  The array is float32 and the divisor a float64
    scalar: the result stays float32 (NumPy 1.x casting). *)
Definition intensity_col (i : spec_float) : spec_float :=
  F32.sub F32.one (F32.div (np_log libm_logf i) (f32_of_f64 log_attenuation)).

Definition lidar_callback (w : world) : result world :=
  let* view := np_frombuffer 4 w in
  let '(data, w) := np_copy view w in
  let* data := np_reshape4 w data in
  let intensity := map (fun '(_, _, _, i) => i) (rows4 (contents w data)) in
  let t := map (fun i => f64_of_f32 (intensity_col i)) intensity in
  let* r := np_interp t VID_RANGE (map (fun c : vec3 => c.1.1) VIRIDIS) in
  let* g := np_interp t VID_RANGE (map (fun c : vec3 => c.1.2) VIRIDIS) in
  let* b := np_interp t VID_RANGE (map (fun c : vec3 => c.2) VIRIDIS) in
  let int_color := np_c_ r g b in
  let points := data in
  let negated := map (fun '(px, _, _, _) => F32.opp px) (rows4 (contents w points)) in
  let w := set_col0 points negated w in
  inr (set_point_list
         {| points := Vector3dVector f64_of_f32
                        (map (fun '(px, py, pz, _) => (px, py, pz)) (rows4 (contents w points)));
            colors := Vector3dVector id int_color |} w).

End Intensity.

(* ================================================================= *)
(** ** [main]: the actor colour table and the render loop *)

(** The loop [for actor in actors] that fills [actor_colors]: an actor id
    not yet in the table gets the next draw of [np.random.random(3)].
    [rand n] is the [n]-th draw of the generator. *)
Definition assign_color (rand : nat -> vec3) (st : gmap Z vec3 * nat) (actor_id : Z)
  : gmap Z vec3 * nat :=
  let '(tbl, n) := st in
  match tbl !! actor_id with
  | None => (<[actor_id := rand n]> tbl, S n)
  | Some _ => (tbl, n)
  end.

Definition assign_actor_colors (rand : nat -> vec3) (actors : list Z) : gmap Z vec3 :=
  (fold_left (assign_color rand) actors (∅, 0%nat)).1.

Definition POINT_DIFF_THRESHOLD : Z := 100.

(** What the loop asks of the visualizer, the file system and the simulator. *)
Inductive event :=
  | add_geometry
  | update_geometry
  | write_point_cloud (frame : nat) (pc : PointCloud)
  | poll_events
  | update_renderer
  | tick.

(** The variables of [main] the loop changes. *)
Record loop_state := {
  frame : nat;
  previous_num_points : option Z
}.

(** [previous_num_points is None or
     abs(current_num_points - previous_num_points) > POINT_DIFF_THRESHOLD] *)
Definition changed_significantly (previous : option Z) (current : Z) : bool :=
  match previous with
  | None => true
  | Some p => Z.abs (current - p) >? POINT_DIFF_THRESHOLD
  end.

(** One iteration of [while True]: the events it causes, in order, and the
    loop variables it leaves.  [record] is [arg.record]; [w] is the world
    the iteration runs in. *)
Definition loop_body (record : bool) (w : world) (st : loop_state) : list event * loop_state :=
  let registration := if (frame st =? 2)%nat then [add_geometry] else [] in
  let current_num_points := Z.of_nat (length (points (point_list w))) in
  let recording :=
    if record && changed_significantly (previous_num_points st) current_num_points
    then [write_point_cloud (frame st) (point_list w)] else [] in
  let previous :=
    if record && changed_significantly (previous_num_points st) current_num_points
    then Some current_num_points else previous_num_points st in
  (registration ++ [update_geometry] ++ recording ++ [poll_events; update_renderer; tick],
   {| frame := S (frame st); previous_num_points := previous |}).

Definition initial_loop_state : loop_state :=
  {| frame := 0; previous_num_points := None |}.

(** The loop over the worlds its successive iterations run in (the sensor
    callbacks change the world between iterations): the trace so far and
    the loop variables. *)
Definition iterate (record : bool) (acc : list event * loop_state) (w : world)
  : list event * loop_state :=
  let out := loop_body record w acc.2 in
  (acc.1 ++ out.1, out.2).

Definition run (record : bool) (ws : list world) : list event * loop_state :=
  fold_left (iterate record) ws ([], initial_loop_state).

(** The world [main] starts in: nothing delivered, nothing decoded. *)
Definition initial_world (tbl : gmap Z vec3) : world :=
  {| raw_data := [];
     heap := [];
     point_list := {| points := []; colors := [] |};
     actor_colors := tbl |}.

(** The point count of the last snapshot a trace wrote, if any. *)
Definition last_recorded (evs : list event) : option Z :=
  fold_left (fun acc ev =>
               match ev with
               | write_point_cloud _ pc => Some (Z.of_nat (length (points pc)))
               | _ => acc
               end) evs None.

Definition is_write (ev : event) : bool :=
  match ev with write_point_cloud _ _ => true | _ => false end.

Definition is_geometry (ev : event) : bool :=
  match ev with add_geometry | update_geometry => true | _ => false end.

(* ================================================================= *)
(** ** What the decoders are expected to compute *)

(** The rows of an intensity payload: [(x, y, z, intensity)]. *)
Definition raw_samples (bs : list Byte.byte)
  : list (spec_float * spec_float * spec_float * spec_float) :=
  rows4 (f4_items bs).

Section IntensityColours.

Variable libm_exp : spec_float -> spec_float.
Variable libm_log : positive -> Z -> spec_float.
Variable libm_logf : positive -> Z -> spec_float.
Variable VIRIDIS : list vec3.

(** The ramp colour of an intensity: each channel interpolated at the
    ramp coordinate of the intensity. *)
Definition ramp_color (i : spec_float) : vec3 :=
  let t := f64_of_f32 (intensity_col libm_exp libm_log libm_logf i) in
  (interp1 (VID_RANGE VIRIDIS) (map (fun c : vec3 => c.1.1) VIRIDIS) t,
   interp1 (VID_RANGE VIRIDIS) (map (fun c : vec3 => c.1.2) VIRIDIS) t,
   interp1 (VID_RANGE VIRIDIS) (map (fun c : vec3 => c.2) VIRIDIS) t).

End IntensityColours.

(** The position of an intensity sample with its first component negated. *)
Definition flip_x (r : spec_float * spec_float * spec_float * spec_float) : vec3 :=
  (f64_of_f32 (F32.opp r.1.1.1), f64_of_f32 r.1.1.2, f64_of_f32 r.1.2).

(** The position of a semantic sample with its second component negated. *)
Definition flip_y (s : SemanticSample) : vec3 :=
  (f64_of_f32 (x s), f64_of_f32 (F32.opp (y s)), f64_of_f32 (z s)).

(** The palette colour of a class tag. *)
Definition class_color (tag : Z) : vec3 :=
  default black (LABEL_COLORS !! Z.to_nat tag).

(** The final colour of a semantic sample: the colour of its actor when
    the table has one, else the colour of its class. *)
Definition resolved_color (tbl : gmap Z vec3) (s : SemanticSample) : vec3 :=
  match tbl !! ObjIdx s with
  | Some c => c
  | None => class_color (ObjTag s)
  end.

Definition visible (tbl : gmap Z vec3) (s : SemanticSample) : bool :=
  negb (is_black (resolved_color tbl s)).

(** The sensor delivering a payload to the callback registered with
    [lidar.listen]: the measurement's bytes, then the call.  A callback
    that raises leaves the objects as they were. *)
Definition deliver (callback : world -> result world) (w : world) (payload : list Byte.byte)
  : world :=
  let w0 := {| raw_data := payload;
               heap := heap w;
               point_list := point_list w;
               actor_colors := actor_colors w |} in
  after (callback w0) w0.

(* ================================================================= *)
(** ** Rounding to binary64 *)

(** What the round and sticky bits say of the part shifted out: [rem]
    out of [pw]. *)
Definition loc_ok (r s : bool) (rem pw : Z) : Prop :=
  (r = true <-> pw <= 2 * rem) /\ (s = true <-> rem <> 0 /\ 2 * rem <> pw).

(** [x / 2^n] rounded to the nearest integer, a tie to the even one. *)
Definition rne (x n : Z) : Z :=
  let q := x / 2 ^ n in
  let r := x mod 2 ^ n in
  if 2 * r <? 2 ^ n then q
  else if (2 * r =? 2 ^ n) && Z.even q then q
  else q + 1.

(** The exponent of the grid on which [x * 2^B] is rounded, over [B],
    and the rounded value, again in units of [2^B]. *)
Definition grid (B x : Z) : Z := Z.max (Zdigits2 x - 53) (-1074 - B).

Definition rnd (B x : Z) : Z := rne x (grid B x) * 2 ^ grid B x.

(** [f] is the binary64 value of sign [s] and magnitude [rnd B x * 2^B]. *)
Definition rounds_to (B x : Z) (s : bool) (f : spec_float) : Prop :=
  match f with
  | S754_zero s' => s' = s /\ rnd B x = 0
  | S754_finite s' m e =>
      s' = s /\ bounded 53 1024 m e = true /\ Z.pos m * 2 ^ (e - B) = rnd B x
  | S754_infinity s' => s' = s /\ 2 ^ (1024 - B) <= rnd B x
  | S754_nan => False
  end.

(** A zero or a positive finite binary64 value. *)
Definition nn (x : spec_float) : bool :=
  match x with
  | S754_zero _ => true
  | S754_finite false m e => bounded 53 1024 m e
  | _ => false
  end.

(** The magnitude of a finite binary64 value in units of [2^-1074]. *)
Definition val (x : spec_float) : Z :=
  match x with
  | S754_finite _ m e => Z.pos m * 2 ^ (e + 1074)
  | _ => 0
  end.

(** [x] is the non-negative value [V * 2^B] rounded to binary64. *)
Definition rounds (B V : Z) (x : spec_float) : Prop :=
  0 <= V /\ if V =? 0 then is_zero x = true else rounds_to B V false x.

(** ** The checks on a ramp *)

(** A ramp entry: a binary64 value in [0,1]. *)
Definition entry_ok (a : spec_float) : bool := valid_binary 53 1024 a && in_unit a.

(** Segment [j] of a channel [fp] over the sample points [xp], with the
    slope [np.interp] computes on it: the slope is a zero or a finite
    binary64 value; on a rising segment the interpolation formula
    [slope * (x - xp[j]) + fp[j]] taken at the end of the segment,
    [x = xp[j+1]], is in [0,1]; on a falling segment the product
    [slope * (xp[j+1] - xp[j])] does not exceed [fp[j]] in magnitude. *)
Definition segment_ok (xp fp : list spec_float) (j : nat) : bool :=
  let a := nth j fp S754_nan in
  let h := F64.sub (nth (S j) xp S754_nan) (nth j xp S754_nan) in
  let slope := F64.div (F64.sub (nth (S j) fp S754_nan) a) h in
  match slope with
  | S754_zero _ => true
  | S754_finite false m e => bounded 53 1024 m e && in_unit (F64.add (F64.mul slope h) a)
  | S754_finite true m e => bounded 53 1024 m e && F64.leb (SFabs (F64.mul slope h)) a
  | _ => false
  end.

(** The sample points are zeros or positive finite values, and so are
    the differences of consecutive ones. *)
Definition knots_ok (xp : list spec_float) : bool :=
  forallb nn xp &&
  forallb (fun j => nn (F64.sub (nth (S j) xp S754_nan) (nth j xp S754_nan)))
          (seq 0 (length xp - 1)).

Definition channel_ok (xp fp : list spec_float) : bool :=
  forallb entry_ok fp && forallb (segment_ok xp fp) (seq 0 (length xp - 1)).

(** The check on a ramp: its three channels over its sample points. *)
Definition ramp_ok (VIRIDIS : list vec3) : bool :=
  let xp := VID_RANGE VIRIDIS in
  channel_ok xp (map (fun c : vec3 => c.1.1) VIRIDIS) &&
  channel_ok xp (map (fun c : vec3 => c.1.2) VIRIDIS) &&
  channel_ok xp (map (fun c : vec3 => c.2) VIRIDIS).

(* ================================================================= *)
(** ** Sample payloads *)

(** The bit patterns of 1.0, 2.0, 3.0 and 0.5 in binary32. *)
Definition bits_1 : Z := 0x3f800000.
Definition bits_2 : Z := 0x40000000.
Definition bits_3 : Z := 0x40400000.
Definition bits_half : Z := 0x3f000000.

Definition words (ws : list Z) : list Byte.byte := concat (map le_bytes32 ws).

(** One intensity sample at (1, 2, 3) with intensity 0.5. *)
Definition intensity_payload : list Byte.byte := words [bits_1; bits_2; bits_3; bits_half].

(** One intensity sample at (1, 2, 3) with intensity -1.0. *)
Definition negative_intensity_payload : list Byte.byte :=
  words [bits_1; bits_2; bits_3; 0xbf800000].

(** One intensity sample at (1, 2, 3) with intensity 0.0. *)
Definition zero_intensity_payload : list Byte.byte := words [bits_1; bits_2; bits_3; 0].

(** Three semantic samples at (1, 2, 3): a car of actor 7, a road point of
    actor 8, a road point of actor 9. *)
Definition semantic_payload : list Byte.byte :=
  words [bits_1; bits_2; bits_3; bits_1; 7; 14;
         bits_1; bits_2; bits_3; bits_1; 8; 1;
         bits_1; bits_2; bits_3; bits_1; 9; 1].

(** One semantic sample whose class tag is 29, one past the palette. *)
Definition bad_tag_payload : list Byte.byte :=
  words [bits_1; bits_2; bits_3; bits_1; 7; 29].

Definition red : vec3 := (F64.one, F64.zero, F64.zero).

(** A world in which a payload has been delivered and nothing decoded. *)
Definition delivered (tbl : gmap Z vec3) (payload : list Byte.byte) : world :=
  {| raw_data := payload;
     heap := [];
     point_list := {| points := []; colors := [] |};
     actor_colors := tbl |}.

(** Stand-ins for the C library and for matplotlib's table, to run the
    intensity decoder on the sample payloads: a logarithm that answers
    -0.5 everywhere, an exponential that answers 0.5, and a 256-row ramp
    from blue to red. *)
Definition half : spec_float := F64.div F64.one (F64.of_Z 2).
Definition sample_exp (_ : spec_float) : spec_float := half.
Definition sample_log (_ : positive) (_ : Z) : spec_float := F64.opp half.
Definition sample_logf (_ : positive) (_ : Z) : spec_float := F64.opp (f32_of_bits bits_half).

(** A second stand-in for [logf]: -0.25 everywhere, which puts the ramp
    coordinate of every positive intensity at 0.5. *)
Definition sample_logf_quarter (_ : positive) (_ : Z) : spec_float :=
  F64.opp (f32_of_bits 0x3e800000).
Definition sample_ramp : list vec3 :=
  map (fun i : nat =>
         let t := F64.div (F64.of_Z (Z.of_nat i)) (F64.of_Z 255) in
         (t, F64.zero, F64.sub F64.one t))
      (seq 0 256).

(** A stand-in for the random generator: the [n]-th draw. *)
Definition sample_rand (n : nat) : vec3 :=
  (F64.div (F64.of_Z (Z.of_nat (S n))) (F64.of_Z 4), half, half).

(* ================================================================= *)
(** ** [generate_lidar_bp] *)

(** The arguments of the script that the code modelled here reads. *)
Record Namespace := {
  semantic : bool;
  no_noise : bool;
  no_autopilot : bool;
  show_axis : bool;
  arg_record : bool;
  upper_fov : spec_float;
  lower_fov : spec_float;
  channels : spec_float;
  range : spec_float;
  points_per_second : Z
}.

(** A blueprint taken from the library: its id and the [set_attribute]
    calls made on it so far, in order. *)
Record ActorBlueprint := {
  blueprint_id : string;
  attributes : list (string * string)
}.

Definition find (name : string) : ActorBlueprint :=
  {| blueprint_id := name; attributes := [] |}.

Definition set_attribute (key value : string) (bp : ActorBlueprint) : ActorBlueprint :=
  {| blueprint_id := blueprint_id bp; attributes := attributes bp ++ [(key, value)] |}.

(** [delta = 0.05] in [main]. *)
Definition delta : spec_float := F64.div (F64.of_Z 5) (F64.of_Z 100).

Section LidarBlueprint.

(** Python's [str] on a float and on an int. *)
Variable str_float : spec_float -> string.
Variable str_int : Z -> string.

Definition generate_lidar_bp (arg : Namespace) (delta : spec_float) : ActorBlueprint :=
  let lidar_bp :=
    if semantic arg then find "sensor.lidar.ray_cast_semantic"
    else
      let lidar_bp := find "sensor.lidar.ray_cast" in
      if no_noise arg then
        set_attribute "dropoff_zero_intensity" "0.0"
          (set_attribute "dropoff_intensity_limit" "1.0"
             (set_attribute "dropoff_general_rate" "0.0" lidar_bp))
      else set_attribute "noise_stddev" "0.2" lidar_bp in
  set_attribute "points_per_second" (str_int (points_per_second arg))
    (set_attribute "rotation_frequency" (str_float (F64.div F64.one delta))
       (set_attribute "range" (str_float (range arg))
          (set_attribute "channels" (str_float (channels arg))
             (set_attribute "lower_fov" (str_float (lower_fov arg))
                (set_attribute "upper_fov" (str_float (upper_fov arg)) lidar_bp))))).

End LidarBlueprint.

(* ================================================================= *)
(** ** [main]: set-up, loop and tear-down *)

(** The local variables of [main] that its [finally] block reads. *)
Inductive local := original_settings | traffic_manager | vehicle | lidar | vis.

(** The calls recorded of an execution of the [try ... finally] of
    [main]: what an iteration of the loop does, and the five calls of the
    [finally] block. *)
Inductive call :=
  | in_loop (ev : event)
  | world_apply_settings_original
  | set_synchronous_mode (on : bool)
  | vehicle_destroy
  | lidar_destroy
  | destroy_window.

(** The statements of the [try] block before the loop, one entry for each
    statement in source order, with the local among those of [finally]
    that the statement binds when it completes.  A compound statement
    ([if ...:] with its branches) is one statement. *)
Definition setup : list (string * option local) :=
  [ ("original_settings = world.get_settings()", Some original_settings);
    ("settings = world.get_settings()", None);
    ("traffic_manager = client.get_trafficmanager(8000)", Some traffic_manager);
    ("traffic_manager.set_synchronous_mode(True)", None);
    ("delta = 0.05", None);
    ("settings.fixed_delta_seconds = delta", None);
    ("settings.synchronous_mode = True", None);
    ("settings.no_rendering_mode = arg.no_rendering", None);
    ("world.apply_settings(settings)", None);
    ("blueprint_library = world.get_blueprint_library()", None);
    ("vehicle_bp = blueprint_library.filter(arg.filter)[0]", None);
    ("vehicle_transform = random.choice(world.get_map().get_spawn_points())", None);
    ("vehicle = world.spawn_actor(vehicle_bp, vehicle_transform)", Some vehicle);
    ("vehicle.set_autopilot(arg.no_autopilot)", None);
    ("lidar_bp = generate_lidar_bp(arg, world, blueprint_library, delta)", None);
    ("user_offset = carla.Location(arg.x, arg.y, arg.z)", None);
    ("lidar_transform = carla.Transform(carla.Location(x=-0.5, z=1.8) + user_offset)", None);
    ("lidar = world.spawn_actor(lidar_bp, lidar_transform, attach_to=vehicle)", Some lidar);
    ("point_list = o3d.geometry.PointCloud()", None);
    ("if arg.semantic: lidar.listen(...) else: lidar.listen(...)", None);
    ("vis = o3d.visualization.Visualizer()", Some vis);
    ("vis.create_window(...)", None);
    ("vis.get_render_option().background_color = [0.05, 0.05, 0.05]", None);
    ("vis.get_render_option().point_size = 1", None);
    ("vis.get_render_option().show_coordinate_frame = True", None);
    ("if arg.show_axis: add_open3d_axis(vis)", None);
    ("frame = 0", None);
    ("dt0 = datetime.now()", None);
    ("if arg.record: recording_folder = ...; os.makedirs(recording_folder, exist_ok=True)", None) ].

(** The statements of the [finally] block: the local each one reads and
    the call it makes. *)
Definition teardown : list (local * call) :=
  [ (original_settings, world_apply_settings_original);
    (traffic_manager, set_synchronous_mode false);
    (vehicle, vehicle_destroy);
    (lidar, lidar_destroy);
    (vis, destroy_window) ].

(** How the [try] block ends: the first [k] statements of the set-up
    complete and the next one raises, or the set-up completes and the loop
    runs over the worlds [ws] until an exception (a [KeyboardInterrupt],
    say) stops it. *)
Inductive interruption :=
  | raised_in_setup (k : nat)
  | raised_in_loop (ws : list world).

(** The exception [main] ends with: the one that interrupted the [try]
    block, or the [UnboundLocalError] of a local that [finally] read
    before any statement had bound it. *)
Inductive outcome := original_exception | UnboundLocalError (v : local).

Definition local_eqb (a b : local) : bool :=
  match a, b with
  | original_settings, original_settings
  | traffic_manager, traffic_manager
  | vehicle, vehicle
  | lidar, lidar
  | vis, vis => true
  | _, _ => false
  end.

(** The [finally] block with the locals [bound]: its statements run in
    order until one reads an unbound local. *)
Fixpoint run_finally (bound : list local) (stmts : list (local * call)) : list call * outcome :=
  match stmts with
  | [] => ([], original_exception)
  | (v, c) :: rest =>
      if existsb (local_eqb v) bound then
        let '(cs, o) := run_finally bound rest in (c :: cs, o)
      else ([], UnboundLocalError v)
  end.

(** The statements of the set-up that completed. *)
Definition completed (i : interruption) : list (string * option local) :=
  match i with
  | raised_in_setup k => take k setup
  | raised_in_loop _ => setup
  end.

(** The calls the loop made before the exception. *)
Definition loop_calls (arg : Namespace) (i : interruption) : list call :=
  match i with
  | raised_in_setup _ => []
  | raised_in_loop ws => map in_loop (run (arg_record arg) ws).1
  end.

(** What [main] does from its loop on, and the exception it ends with:
    the calls of the loop, then those of the [finally] block with the
    locals that the completed statements bound. *)
Definition main_try (arg : Namespace) (i : interruption) : list call * outcome :=
  let '(cs, o) := run_finally (omap snd (completed i)) teardown in
  (loop_calls arg i ++ cs, o).

(* ================================================================= *)
(** ** Reading traces and payloads *)

(** The class tags whose palette entry the script sets to black. *)
Definition disabled_classes : list Z := [0; 1; 2; 10; 11; 24; 26; 27].

Definition is_disabled (tag : Z) : bool := existsb (Z.eqb tag) disabled_classes.

(** The snapshots a trace wrote: frame index and point cloud, in order. *)
Definition snapshots (evs : list event) : list (nat * PointCloud) :=
  omap (fun ev =>
          match ev with
          | write_point_cloud f pc => Some (f, pc)
          | _ => None
          end) evs.

Definition num_points (pc : PointCloud) : Z := Z.of_nat (length (points pc)).

Definition is_tick (ev : event) : bool :=
  match ev with tick => true | _ => false end.

(** A world whose point cloud holds [n] points (at the origin, black). *)
Definition world_with_points (n : nat) : world :=
  {| raw_data := [];
     heap := [];
     point_list := {| points := repeat black n; colors := repeat black n |};
     actor_colors := ∅ |}.

(* ================================================================= *)
(** * Properties *)

(* ================================================================= *)
(** ** The render loop *)

Lemma run_snoc record ws w :
  run record (ws ++ [w]) = iterate record (run record ws) w.
Proof. unfold run. by rewrite fold_left_app. Qed.

Lemma run_frame record ws : frame (run record ws).2 = length ws.
Proof.
  induction ws as [|w ws IH] using rev_ind; [done|].
  rewrite run_snoc, length_app. cbn. rewrite IH. lia.
Qed.

Lemma last_recorded_app evs evs' :
  last_recorded (evs ++ evs') =
  fold_left (fun acc ev =>
               match ev with
               | write_point_cloud _ pc => Some (Z.of_nat (length (points pc)))
               | _ => acc
               end) evs' (last_recorded evs).
Proof. unfold last_recorded. by rewrite fold_left_app. Qed.

(** The loop variable [previous_num_points] is the point count of the
    last snapshot written so far, and [None] while none was written. *)
Lemma previous_is_last_recorded ws :
  previous_num_points (run true ws).2 = last_recorded (run true ws).1.
Proof.
  induction ws as [|w ws IH] using rev_ind; [done|].
  rewrite run_snoc. unfold iterate. cbn [fst snd].
  rewrite last_recorded_app, <- IH.
  unfold loop_body. cbn.
  destruct (changed_significantly _ _), (frame _ =? 2)%nat; reflexivity.
Qed.

Lemma loop_body_geometry record w st :
  List.filter is_geometry (loop_body record w st).1 =
  (if (frame st =? 2)%nat then [add_geometry] else []) ++ [update_geometry].
Proof.
  unfold loop_body. cbn.
  destruct (frame st =? 2)%nat, (record && _); reflexivity.
Qed.

Lemma loop_body_writes record w st ev :
  ev ∈ (loop_body record w st).1 -> is_write ev = true ->
  ev = write_point_cloud (frame st) (point_list w) /\
  record && changed_significantly (previous_num_points st)
              (Z.of_nat (length (points (point_list w)))) = true.
Proof.
  unfold loop_body. cbn. intros Hin Hw.
  destruct (frame st =? 2)%nat, (record && _); cbn in Hin;
    repeat match goal with
           | H : _ ∈ _ :: _ |- _ => apply elem_of_cons in H as [->|H]
           | H : _ ∈ [] |- _ => by apply elem_of_nil in H
           end; try discriminate; done.
Qed.

Lemma loop_body_written record w st :
  existsb is_write (loop_body record w st).1 =
  record && changed_significantly (previous_num_points st)
              (Z.of_nat (length (points (point_list w)))).
Proof.
  unfold loop_body. cbn.
  destruct (frame st =? 2)%nat, (record && _); reflexivity.
Qed.

Lemma changed_significantly_spec previous current :
  changed_significantly previous current = true <->
  previous = None \/ exists p, previous = Some p /\ Z.abs (current - p) > 100.
Proof.
  unfold changed_significantly, POINT_DIFF_THRESHOLD.
  destruct previous as [p|].
  - rewrite Z.gtb_gt. split.
    + intros H. right. exists p. split; [done | lia].
    + intros [H | (q & [= <-] & H)]; [done | lia].
  - split; [by left | done].
Qed.

(** C4. With recording enabled, the iteration that follows any run writes
    a snapshot exactly when no snapshot was written before or the new
    point count differs from the count of the last snapshot written by
    more than 100 in absolute value; the snapshot is the whole point cloud
    and comes after the iteration's [update_geometry]; the reference count
    [previous_num_points] becomes the new count when a snapshot is
    written and keeps its value otherwise.  From a reference of 1000 a
    count of 1050 writes nothing and a count of 1200 writes a snapshot. *)
Theorem recording_threshold (ws : list world) (w : world) :
  let before := run true ws in
  let now := loop_body true w before.2 in
  let current := Z.of_nat (length (points (point_list w))) in
  (existsb is_write now.1 = true <->
     last_recorded before.1 = None \/
     exists p, last_recorded before.1 = Some p /\ Z.abs (current - p) > 100)
  /\ (forall ev, ev ∈ now.1 -> is_write ev = true ->
        ev = write_point_cloud (length ws) (point_list w))
  /\ (exists pre post, now.1 = pre ++ update_geometry :: post /\
        existsb is_write pre = false)
  /\ previous_num_points now.2 =
       (if existsb is_write now.1 then Some current else previous_num_points before.2)
  /\ (forall st w', previous_num_points st = Some 1000 ->
        length (points (point_list w')) = 1050%nat ->
        existsb is_write (loop_body true w' st).1 = false)
  /\ (forall st w', previous_num_points st = Some 1000 ->
        length (points (point_list w')) = 1200%nat ->
        existsb is_write (loop_body true w' st).1 = true).
Proof.
  cbv zeta. repeat split.
  - rewrite loop_body_written, previous_is_last_recorded. cbn [andb].
    apply changed_significantly_spec.
  - rewrite loop_body_written, previous_is_last_recorded. cbn [andb].
    apply changed_significantly_spec.
  - intros ev Hin Hw. rewrite <- (run_frame true ws).
    by apply (loop_body_writes true w _ ev).
  - exists (if (frame (run true ws).2 =? 2)%nat then [add_geometry] else []).
    eexists. split; [reflexivity|]. by destruct (_ =? _)%nat.
  - rewrite loop_body_written. cbn [andb]. unfold loop_body. cbn.
    by destruct (changed_significantly _ _).
  - intros st w' Hp Hn. rewrite loop_body_written, Hp, Hn. reflexivity.
  - intros st w' Hp Hn. rewrite loop_body_written, Hp, Hn. reflexivity.
Qed.

(** C9 (as the code has it).  Over any run of [n] iterations the calls on
    the geometry are: one [update_geometry] in each of iterations 0 and 1,
    with no registration; in iteration 2 the single [add_geometry],
    followed by that iteration's [update_geometry]; one [update_geometry]
    in every later iteration. *)
Theorem geometry_registered_at_frame_two (record : bool) (ws : list world) :
  List.filter is_geometry (run record ws).1 =
  repeat update_geometry (length ws `min` 2)%nat ++
  (if (2 <? length ws)%nat
   then add_geometry :: repeat update_geometry (length ws - 2)%nat
   else []).
Proof.
  induction ws as [|w ws IH] using rev_ind; [done|].
  rewrite run_snoc. unfold iterate. cbn [fst snd].
  rewrite List.filter_app, IH, loop_body_geometry, run_frame, length_app. cbn [length].
  destruct (length ws) as [|[|[|n]]]; [reflexivity..|].
  replace (S (S (S n)) + 1)%nat with (S (S (S (S n)))) by lia.
  replace (S (S (S n)) `min` 2)%nat with 2%nat by lia.
  replace (S (S (S (S n))) `min` 2)%nat with 2%nat by lia.
  cbn [Nat.ltb Nat.leb Nat.eqb app].
  replace (S (S (S n)) - 2)%nat with (S n) by lia.
  replace (S (S (S (S n))) - 2)%nat with (S (S n)) by lia.
  cbn [repeat app]. do 3 f_equal.
  change (update_geometry :: repeat update_geometry n) with (repeat update_geometry (S n)).
  rewrite <- repeat_cons. reflexivity.
Qed.

(** C9, counterexample to the specification's wording: in its first two
    iterations the loop updates the geometry and registers nothing; the
    registration comes in the third. *)
Lemma first_frames_update_unregistered :
  (loop_body false (initial_world ∅) initial_loop_state).1 =
    [update_geometry; poll_events; update_renderer; tick]
  /\ List.filter is_geometry (run false [initial_world ∅; initial_world ∅]).1 =
       [update_geometry; update_geometry]
  /\ List.filter is_geometry
       (run false [initial_world ∅; initial_world ∅; initial_world ∅]).1 =
       [update_geometry; update_geometry; add_geometry; update_geometry].
Proof. repeat split. Qed.

(* ================================================================= *)
(** ** Payload items and array memory *)

Lemma length_items k bs : length (items k bs) = (length bs / k)%nat.
Proof. unfold items. by rewrite length_map, length_seq. Qed.

Lemma length_f4_items bs : length (f4_items bs) = (length bs / 4)%nat.
Proof. unfold f4_items. by rewrite length_map, length_items. Qed.

Lemma length_samples bs : length (samples bs) = (length bs / 24)%nat.
Proof. unfold samples. by rewrite length_map, length_items. Qed.

Lemma length_rows4 flat : length (rows4 flat) = (length flat / 4)%nat.
Proof.
  remember (length flat) as n eqn:Hn. revert flat Hn.
  induction n as [n IH] using lt_wf_ind. intros flat ->.
  destruct flat as [|a [|b [|c [|d rest]]]]; try reflexivity.
  cbn [rows4 length]. rewrite (IH (length rest)) by (cbn; lia || reflexivity).
  lia.
Qed.

(** The slice assignment changes the first column and nothing else. *)
Lemma rows4_assign_col0 col flat :
  length col = length (rows4 flat) ->
  rows4 (assign_col0 col flat) =
  zip_with (fun v r => (v, r.1.1.2, r.1.2, r.2)) col (rows4 flat).
Proof.
  revert flat. induction col as [|v col IH]; intros flat Hlen.
  - by destruct flat as [|a [|b [|c [|d rest]]]].
  - destruct flat as [|a [|b [|c [|d rest]]]]; try done.
    unfold assign_col0. rewrite !imap_cons. cbn [rows4 zip_with].
    f_equal; [reflexivity..|].
    rewrite <- IH by (cbn in Hlen; lia).
    f_equal. apply imap_ext. intros i e _. unfold compose.
    change (S (S (S (S i)))) with (4 + i)%nat.
    replace ((4 + i) mod 4)%nat with (i mod 4)%nat by lia.
    by replace ((4 + i) / 4)%nat with (S (i / 4))%nat by lia.
Qed.

Lemma rows4_negate_x flat :
  rows4 (assign_col0 (map (fun '(px, _, _, _) => F32.opp px) (rows4 flat)) flat) =
  map (fun r => (F32.opp r.1.1.1, r.1.1.2, r.1.2, r.2)) (rows4 flat).
Proof.
  rewrite rows4_assign_col0 by by rewrite length_map.
  generalize (rows4 flat). intros rows.
  induction rows as [|[[[a b] c] d] rows IH]; [done|].
  cbn. by rewrite IH.
Qed.

Lemma np_c_map {A} (f g h : A -> spec_float) (l : list A) :
  np_c_ (map f l) (map g l) (map h l) = map (fun a => (f a, g a, h a)) l.
Proof. induction l as [|a l IH]; [done|]. cbn. f_equal. exact IH. Qed.

Lemma Vector3dVector_id rows : Vector3dVector id rows = rows.
Proof.
  unfold Vector3dVector.
  induction rows as [|[[a b] c] rows IH]; [done|]. cbn. by f_equal.
Qed.

Lemma length_VID_RANGE VIRIDIS : length (VID_RANGE VIRIDIS) = length VIRIDIS.
Proof. unfold VID_RANGE, np_linspace01. by rewrite length_map, length_seq. Qed.

Lemma contents_np_copy h w :
  contents (np_copy h w).2 (np_copy h w).1 = contents w h.
Proof.
  unfold np_copy, contents at 1. cbn [fst snd heap].
  by rewrite list_lookup_middle.
Qed.

Lemma contents_set_col0 a col w :
  (a < length (heap w))%nat ->
  contents (set_col0 (Owned a) col w) (Owned a) = assign_col0 col (contents w (Owned a)).
Proof.
  intros Ha. unfold set_col0, write, contents at 1. cbn [heap].
  by rewrite list_lookup_insert_eq.
Qed.

Lemma mask_assign_map {A B} (p : B -> bool) (f : A -> B) (g : A -> vec3) c (l : list A) :
  mask_assign (map p (map f l)) c (map g l) = map (fun a => if p (f a) then c else g a) l.
Proof. unfold mask_assign. induction l as [|a l IH]; [done|]. cbn. by f_equal. Qed.

Lemma mask_select_map {A B} (p : A -> bool) (g : A -> B) (l : list A) :
  mask_select (map p l) (map g l) = map g (List.filter p l).
Proof.
  induction l as [|a l IH]; [done|]. cbn [map mask_select List.filter].
  destruct (p a); cbn; [by f_equal | done].
Qed.

Lemma filter_sublist {A} (p : A -> bool) (l : list A) : List.filter p l `sublist_of` l.
Proof.
  induction l as [|a l IH]; [constructor|]. cbn.
  destruct (p a); by constructor.
Qed.

(* ================================================================= *)
(** ** The semantic decoder *)

Lemma length_LABEL_COLORS : length LABEL_COLORS = 29%nat.
Proof. reflexivity. Qed.

Lemma take_rows_in_range tags :
  Forall (fun t => t < 29) tags ->
  take_rows LABEL_COLORS tags = inr (map class_color tags).
Proof.
  induction 1 as [|t tags Ht _ IH]; [done|].
  cbn [take_rows map]. unfold class_color at 1.
  destruct (LABEL_COLORS !! Z.to_nat t) as [c|] eqn:Hc.
  - rewrite IH. reflexivity.
  - apply lookup_ge_None in Hc. rewrite length_LABEL_COLORS in Hc. lia.
Qed.

Lemma take_rows_out_of_range tags :
  Exists (fun t => 29 <= t) tags ->
  take_rows LABEL_COLORS tags = inl IndexError.
Proof.
  induction 1 as [t tags Ht|t tags _ IH]; cbn [take_rows].
  - rewrite (proj2 (lookup_ge_None LABEL_COLORS (Z.to_nat t))); [done|].
    rewrite length_LABEL_COLORS. lia.
  - destruct (LABEL_COLORS !! Z.to_nat t); [|done]. by rewrite IH.
Qed.

Lemma elem_of_insert_sorted a b l : a ∈ insert_sorted b l <-> a = b \/ a ∈ l.
Proof.
  induction l as [|c l IH]; cbn [insert_sorted].
  - rewrite elem_of_cons. tauto.
  - destruct (b <? c) eqn:Hlt; [by rewrite elem_of_cons|].
    destruct (b =? c) eqn:Heq.
    + apply Z.eqb_eq in Heq as ->. rewrite elem_of_cons. tauto.
    + rewrite !elem_of_cons, IH. tauto.
Qed.

Lemma elem_of_np_unique a l : a ∈ np_unique l <-> a ∈ l.
Proof.
  induction l as [|b l IH]; [done|].
  cbn. rewrite elem_of_insert_sorted, IH, elem_of_cons. tauto.
Qed.

(** The loop over the unique actor ids gives every sample whose actor is
    among the ids visited, and in the table, the actor's colour. *)
Lemma override_fold tbl (data : list SemanticSample) us (col : SemanticSample -> vec3) :
  fold_left (override tbl (map ObjIdx data)) us (map col data) =
  map (fun s => if decide (ObjIdx s ∈ us) then default (col s) (tbl !! ObjIdx s) else col s) data.
Proof.
  revert col. induction us as [|u us IH]; intros col.
  - cbn. apply map_ext. intros s. rewrite decide_False; [done|]. apply not_elem_of_nil.
  - cbn [fold_left]. unfold override at 2.
    destruct (tbl !! u) as [c|] eqn:Hu.
    + rewrite mask_assign_map, IH. apply map_ext. intros s.
      destruct (ObjIdx s =? u) eqn:Heq.
      * apply Z.eqb_eq in Heq. rewrite Heq, Hu.
        rewrite (decide_True (P := u ∈ u :: us)) by apply list_elem_of_here.
        by destruct (decide (u ∈ us)).
      * apply Z.eqb_neq in Heq.
        destruct (decide (ObjIdx s ∈ us)) as [Hin|Hin].
        -- by rewrite decide_True by by apply list_elem_of_further.
        -- rewrite decide_False; [done|].
           rewrite elem_of_cons. tauto.
    + rewrite IH. apply map_ext. intros s.
      destruct (decide (ObjIdx s ∈ us)) as [Hin|Hin].
      * by rewrite decide_True by by apply list_elem_of_further.
      * destruct (decide (ObjIdx s ∈ u :: us)) as [Hin'|Hin']; [|done].
        apply elem_of_cons in Hin' as [->|?]; [|done]. by rewrite Hu.
Qed.

Lemma semantic_lidar_callback_returns w :
  (length (raw_data w) mod 24 = 0)%nat ->
  Forall (fun s => ObjTag s < 29) (samples (raw_data w)) ->
  semantic_lidar_callback w =
  inr {| raw_data := raw_data w;
         heap := heap w;
         point_list :=
           {| points := map flip_y (List.filter (visible (actor_colors w)) (samples (raw_data w)));
              colors := map (resolved_color (actor_colors w))
                            (List.filter (visible (actor_colors w)) (samples (raw_data w))) |};
         actor_colors := actor_colors w |}.
Proof.
  intros Hlen Htags.
  unfold semantic_lidar_callback, np_frombuffer.
  rewrite (proj2 (Nat.eqb_eq _ _) Hlen). cbn [bind].
  rewrite take_rows_in_range by (by apply Forall_fmap).
  cbn [bind]. rewrite map_map, override_fold.
  rewrite (map_ext_in _ (resolved_color (actor_colors w))).
  2:{ intros s Hs. unfold resolved_color.
      rewrite decide_True; [by destruct (actor_colors w !! ObjIdx s)|].
      apply elem_of_np_unique, list_elem_of_fmap_2, list_elem_of_In, Hs. }
  rewrite (map_map _ (fun c : vec3 => negb (is_black c))).
  change (map (fun s => negb (is_black (resolved_color (actor_colors w) s))))
    with (map (visible (actor_colors w))).
  rewrite !mask_select_map, Vector3dVector_id.
  unfold Vector3dVector. rewrite map_map. reflexivity.
Qed.

Lemma semantic_lidar_callback_value_error w :
  (length (raw_data w) mod 24 <> 0)%nat ->
  semantic_lidar_callback w = inl ValueError.
Proof.
  intros Hlen. unfold semantic_lidar_callback, np_frombuffer.
  by rewrite (proj2 (Nat.eqb_neq _ _) Hlen).
Qed.

Lemma semantic_lidar_callback_index_error w :
  (length (raw_data w) mod 24 = 0)%nat ->
  Exists (fun s => 29 <= ObjTag s) (samples (raw_data w)) ->
  semantic_lidar_callback w = inl IndexError.
Proof.
  intros Hlen Htag. unfold semantic_lidar_callback, np_frombuffer.
  rewrite (proj2 (Nat.eqb_eq _ _) Hlen). cbn [bind].
  rewrite take_rows_out_of_range; [done|].
  by apply Exists_fmap.
Qed.

(** The semantic decoder writes the point cloud and nothing else. *)
Lemma semantic_lidar_callback_frame w w' :
  semantic_lidar_callback w = inr w' ->
  raw_data w' = raw_data w /\ heap w' = heap w /\ actor_colors w' = actor_colors w.
Proof.
  unfold semantic_lidar_callback.
  destruct (np_frombuffer 24 w); [done|]. cbn [bind].
  destruct (take_rows _ _); [done|]. cbn [bind].
  by intros [= <-].
Qed.

Lemma is_black_black c : is_black c = false -> c <> black.
Proof. intros H ->. discriminate H. Qed.

(** C1. On a payload of 24P bytes whose class tags are within the palette
    the semantic decoder returns; what it leaves in the point cloud are
    the positions and the final colours (actor colour when the table has
    the actor, else class colour) of exactly the samples whose final
    colour is not black, in payload order; so positions and colours have
    the same length, at most P, and no colour left is black. *)
Theorem semantic_decoder_output (w : world) (P : nat) :
  length (raw_data w) = (24 * P)%nat ->
  Forall (fun s => ObjTag s < 29) (samples (raw_data w)) ->
  exists w',
    semantic_lidar_callback w = inr w' /\
    let data := samples (raw_data w) in
    let kept := List.filter (fun s => negb (is_black (resolved_color (actor_colors w) s))) data in
    length data = P /\
    kept `sublist_of` data /\
    points (point_list w') = map flip_y kept /\
    colors (point_list w') = map (resolved_color (actor_colors w)) kept /\
    length (points (point_list w')) = length (colors (point_list w')) /\
    (length (points (point_list w')) <= P)%nat /\
    Forall (fun c => is_black c = false /\ c <> black) (colors (point_list w')).
Proof.
  intros Hlen Htags.
  eexists. split; [apply semantic_lidar_callback_returns; [lia | done]|].
  cbv zeta. cbn [point_list points colors].
  change (fun s => negb (is_black (resolved_color (actor_colors w) s)))
    with (visible (actor_colors w)).
  assert (HP : length (samples (raw_data w)) = P).
  { rewrite length_samples, Hlen. lia. }
  repeat split.
  - exact HP.
  - apply filter_sublist.
  - by rewrite !length_map.
  - rewrite length_map, <- HP. apply sublist_length, filter_sublist.
  - apply Forall_fmap, Forall_forall. intros s Hs.
    apply list_elem_of_In, filter_In in Hs as [_ Hs].
    unfold visible in Hs. apply negb_true_iff in Hs.
    split; [exact Hs | by apply is_black_black].
Qed.

(** C7. A payload of whole records in which some class tag is 29 or more
    makes the semantic decoder raise [IndexError]; nothing is decoded. *)
Theorem class_tag_out_of_range_raises (w : world) :
  (length (raw_data w) mod 24 = 0)%nat ->
  Exists (fun s => 29 <= ObjTag s) (samples (raw_data w)) ->
  semantic_lidar_callback w = inl IndexError /\
  after (semantic_lidar_callback w) w = w.
Proof.
  intros Hlen Htag.
  rewrite semantic_lidar_callback_index_error by done. done.
Qed.

(** The three sample records under a table that knows actor 9: the car
    keeps its class colour, the road point of actor 8 is dropped, the road
    point of actor 9 shows in the actor's colour. *)
Lemma semantic_decoder_output_witness :
  exists w',
    semantic_lidar_callback (delivered {[9 := red]} semantic_payload) = inr w' /\
    points (point_list w') =
      [(F64.one, F64.opp (F64.of_Z 2), F64.of_Z 3);
       (F64.one, F64.opp (F64.of_Z 2), F64.of_Z 3)] /\
    colors (point_list w') = [class_color 14; red].
Proof.
  destruct (semantic_decoder_output (delivered {[9 := red]} semantic_payload) 3)
    as (w' & Hw' & _ & _ & Hpoints & Hcolors & _).
  - reflexivity.
  - repeat constructor.
  - exists w'. split; [exact Hw'|]. split; [exact Hpoints | exact Hcolors].
Defined.

(** The record with class tag 29. *)
Lemma class_tag_out_of_range_raises_witness :
  semantic_lidar_callback (delivered ∅ bad_tag_payload) = inl IndexError /\
  after (semantic_lidar_callback (delivered ∅ bad_tag_payload)) (delivered ∅ bad_tag_payload) =
  delivered ∅ bad_tag_payload.
Proof.
  apply (class_tag_out_of_range_raises (delivered ∅ bad_tag_payload)).
  - reflexivity.
  - apply Exists_cons_hd. vm_compute. discriminate.
Defined.

(* ================================================================= *)
(** ** Comparisons and the interpolation at the ends of the ramp *)

Lemma F64_one_eq : F64.one = S754_finite false 4503599627370496 (-52).
Proof. reflexivity. Qed.

Lemma ltb_not_nan a b : F64.ltb a b = true -> is_nan a = false /\ is_nan b = false.
Proof. by destruct a as [| | |[]], b as [| | |[]]. Qed.

Lemma leb_zero t :
  F64.leb t F64.zero = true -> F64.ltb t F64.zero = true \/ exists s, t = S754_zero s.
Proof. destruct t as [s|[]| |[] m e]; try done; eauto. Qed.

Lemma leb_one t :
  F64.leb F64.one t = true -> F64.ltb F64.one t = true \/ t = F64.one.
Proof.
  rewrite F64_one_eq.
  destruct t as [s|[]| |[] m e]; try done; try (by left).
  unfold F64.leb, F64.ltb, SFleb, SFltb. cbn [SFcompare].
  destruct (_ ?= e) eqn:He; try done; try (by left).
  apply Z.compare_eq in He as <-.
  destruct (Pos.compare_cont _ _ _) eqn:Hm; try done; try (by left).
  apply (Pos.compare_eq 4503599627370496 m) in Hm as <-. by right.
Qed.

Lemma ltb_zero_one t : F64.ltb t F64.zero = true -> F64.ltb F64.one t = false.
Proof. rewrite F64_one_eq. by destruct t as [s|[]| |[] m e]. Qed.

Lemma interp1_below xp fp t :
  F64.ltb (List.last xp S754_nan) t = false ->
  F64.ltb t (hd S754_nan xp) = true ->
  interp1 xp fp t = nth 0 fp S754_nan.
Proof.
  intros Hlast Hhd. unfold interp1, binary_search.
  destruct (ltb_not_nan _ _ Hhd) as [-> _]. by rewrite Hlast, Hhd.
Qed.

Lemma interp1_above xp fp t :
  F64.ltb (List.last xp S754_nan) t = true ->
  interp1 xp fp t = nth (length xp - 1) fp S754_nan.
Proof.
  intros Hlast. unfold interp1, binary_search.
  destruct (ltb_not_nan _ _ Hlast) as [_ ->]. rewrite Hlast.
  replace (Z.of_nat (length xp) =? -1) with false by (symmetry; apply Z.eqb_neq; lia).
  rewrite Z.eqb_refl. f_equal. lia.
Qed.

Lemma interp1_at xp fp t (j : nat) :
  is_nan t = false ->
  binary_search t xp = Z.of_nat j ->
  (j < length xp)%nat ->
  (S j = length xp \/ F64.eqb (nth j xp S754_nan) t = true) ->
  interp1 xp fp t = nth j fp S754_nan.
Proof.
  intros Hnan Hj Hlt Hknot. unfold interp1. rewrite Hnan, Hj.
  replace (Z.of_nat j =? -1) with false by (symmetry; apply Z.eqb_neq; lia).
  replace (Z.of_nat j =? Z.of_nat (length xp)) with false by (symmetry; apply Z.eqb_neq; lia).
  destruct (Z.of_nat j =? Z.of_nat (length xp) - 1) eqn:Hend.
  - by rewrite Nat2Z.id.
  - rewrite Nat2Z.id. destruct Hknot as [Hknot|Hknot].
    + apply Z.eqb_neq in Hend. lia.
    + by rewrite Hknot.
Qed.

(** The sample points of a 256-row ramp, by evaluation. *)
Lemma length_linspace n : length (np_linspace01 n) = n.
Proof. unfold np_linspace01. by rewrite length_map, length_seq. Qed.

Lemma hd_linspace256 : hd S754_nan (np_linspace01 256) = F64.zero.
Proof. vm_compute. reflexivity. Qed.

Lemma last_linspace256 : List.last (np_linspace01 256) S754_nan = F64.one.
Proof. vm_compute. reflexivity. Qed.

Lemma search_one_linspace256 : binary_search F64.one (np_linspace01 256) = 255.
Proof. vm_compute. reflexivity. Qed.

Lemma search_zero_linspace256 s : binary_search (S754_zero s) (np_linspace01 256) = 0.
Proof. destruct s; vm_compute; reflexivity. Qed.

Lemma knot_zero_linspace256 s :
  F64.eqb (nth 0 (np_linspace01 256) S754_nan) (S754_zero s) = true.
Proof. destruct s; vm_compute; reflexivity. Qed.

(** At or beyond the ends of a 256-point ramp the interpolation returns
    the first or the last entry of the channel. *)
Lemma interp1_ends (fp : list spec_float) t :
  length fp = 256%nat ->
  F64.leb t F64.zero = true \/ F64.leb F64.one t = true ->
  interp1 (np_linspace01 256) fp t = nth 0 fp S754_nan \/
  interp1 (np_linspace01 256) fp t = nth 255 fp S754_nan.
Proof.
  intros Hfp [[Hlt|[s ->]]%leb_zero | [Hgt| ->]%leb_one].
  - left. apply interp1_below.
    + rewrite last_linspace256. by apply ltb_zero_one.
    + by rewrite hd_linspace256.
  - left. apply (interp1_at _ _ _ 0); [done | apply search_zero_linspace256 | |].
    + rewrite length_linspace. lia.
    + right. apply knot_zero_linspace256.
  - right. rewrite interp1_above by by rewrite last_linspace256.
    by rewrite length_linspace.
  - right. apply (interp1_at _ _ _ 255); [done | apply search_one_linspace256 | |].
    + rewrite length_linspace. lia.
    + left. by rewrite length_linspace.
Qed.

Lemma in_unit_channel (f : vec3 -> spec_float) (ramp : list vec3) (j : nat) :
  (forall c, in_unit3 c = true -> in_unit (f c) = true) ->
  Forall (fun c => in_unit3 c = true) ramp ->
  (j < length ramp)%nat ->
  in_unit (nth j (map f ramp) S754_nan) = true.
Proof.
  intros Hf Hramp Hj.
  rewrite (nth_indep _ _ (f (S754_nan, S754_nan, S754_nan))) by by rewrite length_map.
  rewrite map_nth. apply Hf.
  rewrite Forall_forall in Hramp. apply Hramp, list_elem_of_In, nth_In, Hj.
Qed.

Lemma semantic_lidar_callback_inv w w' :
  semantic_lidar_callback w = inr w' ->
  (length (raw_data w) mod 24 = 0)%nat /\
  Forall (fun s => ObjTag s < 29) (samples (raw_data w)).
Proof.
  intros Hret.
  destruct (decide (length (raw_data w) mod 24 = 0)%nat) as [Hlen|Hlen].
  - split; [done|].
    destruct (Forall_Exists_dec (fun s => ObjTag s < 29) (fun s => 29 <= ObjTag s)
                (fun s => Z_lt_le_dec (ObjTag s) 29) (samples (raw_data w)))
      as [Hok|Hbad]; [done|].
    by rewrite semantic_lidar_callback_index_error in Hret.
  - by rewrite semantic_lidar_callback_value_error in Hret.
Qed.

(* ================================================================= *)
(** ** Binary64 rounding and the interpolation inside the ramp *)

(** ** Powers of two and the number of digits *)

Lemma pow2_pos k : 0 < 2 ^ k \/ (k < 0 /\ 2 ^ k = 0).
Proof.
  destruct (Z.le_gt_cases 0 k) as [H|H].
  - left. by apply Z.pow_pos_nonneg.
  - right. split; [done|]. by apply Z.pow_neg_r.
Qed.

Lemma pow2_gt0 k : 0 <= k -> 0 < 2 ^ k.
Proof. intros. by apply Z.pow_pos_nonneg. Qed.

Lemma pow2_add a b : 0 <= a -> 0 <= b -> 2 ^ (a + b) = 2 ^ a * 2 ^ b.
Proof. intros. by apply Z.pow_add_r. Qed.

Lemma pow2_succ a : 0 <= a -> 2 ^ (a + 1) = 2 * 2 ^ a.
Proof. intros. rewrite pow2_add by lia. change (2 ^ 1) with 2. lia. Qed.

Lemma pow2_le a b : 0 <= a <= b -> 2 ^ a <= 2 ^ b.
Proof. intros. apply Z.pow_le_mono_r; lia. Qed.

Lemma pow2_lt a b : 0 <= a < b -> 2 ^ a < 2 ^ b.
Proof. intros. apply Z.pow_lt_mono_r; lia. Qed.

Lemma digits2_pos_bounds p :
  2 ^ (Z.pos (digits2_pos p) - 1) <= Z.pos p < 2 ^ Z.pos (digits2_pos p).
Proof.
  induction p as [p IH|p IH|]; cbn [digits2_pos]; [| |cbn; lia];
    rewrite Pos2Z.inj_succ;
    replace (Z.succ (Z.pos (digits2_pos p)) - 1) with (Z.pos (digits2_pos p) - 1 + 1) by lia;
    unfold Z.succ; rewrite !pow2_succ by lia; lia.
Qed.

Lemma digits2_pos_unique p d :
  2 ^ (d - 1) <= Z.pos p < 2 ^ d -> Z.pos (digits2_pos p) = d.
Proof.
  intros [Hlo Hhi]. pose proof (digits2_pos_bounds p) as [Hlo' Hhi'].
  assert (0 < d).
  { destruct (Z.le_gt_cases d 0) as [H|H]; [|done].
    destruct (Z.eq_dec d 0) as [->|]; [cbn in Hhi; lia|].
    rewrite Z.pow_neg_r in Hhi by lia. lia. }
  destruct (Z.lt_trichotomy (Z.pos (digits2_pos p)) d) as [H1|[H1|H1]]; [|done|].
  - assert (2 ^ Z.pos (digits2_pos p) <= 2 ^ (d - 1)) by (apply pow2_le; lia). lia.
  - assert (2 ^ d <= 2 ^ (Z.pos (digits2_pos p) - 1)) by (apply pow2_le; lia). lia.
Qed.

Lemma digits2_pos_shift p q k :
  0 <= k -> Z.pos q = Z.pos p * 2 ^ k ->
  Z.pos (digits2_pos q) = Z.pos (digits2_pos p) + k.
Proof.
  intros Hk Hq. apply digits2_pos_unique. rewrite Hq.
  pose proof (digits2_pos_bounds p) as [Hlo Hhi].
  pose proof (pow2_gt0 k Hk).
  replace (Z.pos (digits2_pos p) + k - 1) with (Z.pos (digits2_pos p) - 1 + k) by lia.
  rewrite !pow2_add by lia. nia.
Qed.

Lemma digits2_pos_mono p q :
  Z.pos p <= Z.pos q -> Z.pos (digits2_pos p) <= Z.pos (digits2_pos q).
Proof.
  intros Hle. pose proof (digits2_pos_bounds p) as [Hlo _].
  pose proof (digits2_pos_bounds q) as [_ Hhi].
  destruct (Z.le_gt_cases (Z.pos (digits2_pos p)) (Z.pos (digits2_pos q))) as [H|H]; [done|].
  assert (2 ^ Z.pos (digits2_pos q) <= 2 ^ (Z.pos (digits2_pos p) - 1)) by (apply pow2_le; lia).
  lia.
Qed.

(** ** Shifting right *)

Lemma iter_pos_nat {A} (f : A -> A) p x :
  SpecFloat.iter_pos f p x = Nat.iter (Pos.to_nat p) f x.
Proof.
  revert x. induction p as [p IH|p IH|]; intros x; cbn [SpecFloat.iter_pos].
  - rewrite !IH, Pos2Nat.inj_xI.
    replace (S (2 * Pos.to_nat p)) with (Pos.to_nat p + (Pos.to_nat p + 1))%nat by lia.
    rewrite !Nat.iter_add. reflexivity.
  - rewrite !IH, Pos2Nat.inj_xO.
    replace (2 * Pos.to_nat p)%nat with (Pos.to_nat p + Pos.to_nat p)%nat by lia.
    rewrite Nat.iter_add. reflexivity.
  - reflexivity.
Qed.

Lemma shr_1_nonneg m r s :
  0 <= m ->
  shr_1 {| shr_m := m; shr_r := r; shr_s := s |} =
  {| shr_m := m / 2; shr_r := Z.odd m; shr_s := r || s |}.
Proof.
  intros Hm. destruct m as [|[p|p|]|]; try lia; cbn [shr_1]; f_equal; try reflexivity.
  - rewrite Pos2Z.inj_xI. lia.
  - rewrite Pos2Z.inj_xO. lia.
Qed.

Lemma shr_n_spec m k :
  0 <= m ->
  let mrs := Nat.iter k shr_1 {| shr_m := m; shr_r := false; shr_s := false |} in
  shr_m mrs = m / 2 ^ Z.of_nat k /\
  loc_ok (shr_r mrs) (shr_s mrs) (m mod 2 ^ Z.of_nat k) (2 ^ Z.of_nat k).
Proof.
  intros Hm. induction k as [|k IH].
  - cbn. unfold loc_ok. rewrite Z.div_1_r, Z.mod_1_r. cbn.
    repeat split; intros; try done; try lia.
  - cbv zeta in IH |- *. rewrite Nat.iter_succ.
    destruct (Nat.iter k shr_1 _) as [q r s]. cbn [shr_m shr_r shr_s] in IH.
    destruct IH as [Hq Hloc].
    assert (Hq0 : 0 <= q).
    { rewrite Hq. apply Z.div_pos; [done|]. apply pow2_gt0. lia. }
    rewrite shr_1_nonneg by done. cbn [shr_m shr_r shr_s].
    rewrite Nat2Z.inj_succ. unfold Z.succ. rewrite pow2_succ by lia.
    pose proof (pow2_gt0 (Z.of_nat k) ltac:(lia)) as HP.
    set (P := 2 ^ Z.of_nat k) in *.
    assert (Hdiv : m / (2 * P) = q / 2).
    { rewrite Hq. rewrite Z.mul_comm. rewrite <- Z.div_div by lia. reflexivity. }
    assert (Hmod : m mod (2 * P) = m mod P + P * (q mod 2)).
    { rewrite Hq. rewrite (Z.mul_comm 2 P). apply Z.rem_mul_r; lia. }
    split; [by rewrite Hdiv|].
    rewrite Hmod. destruct Hloc as [Hr Hs]. unfold loc_ok.
    assert (Hrange : 0 <= m mod P < P) by (apply Z.mod_pos_bound; lia).
    set (rem := m mod P) in *.
    assert (Hr' : if r then P <= 2 * rem else 2 * rem < P).
    { destruct r; [by apply Hr|]. destruct (Z.le_gt_cases P (2 * rem)) as [X|X]; [|done].
      by apply Hr in X. }
    assert (Hs' : if s then rem <> 0 /\ 2 * rem <> P else rem = 0 \/ 2 * rem = P).
    { destruct s; [by apply Hs|].
      destruct (Z.eq_dec rem 0); [by left|]. destruct (Z.eq_dec (2 * rem) P); [by right|].
      by assert (false = true) by by apply Hs. }
    clear Hr Hs Hmod Hdiv Hq.
    rewrite Zodd_mod, Z.eqb_eq, orb_true_iff.
    assert (Hodd : q mod 2 = 0 \/ q mod 2 = 1) by lia.
    destruct Hodd as [Ho|Ho]; rewrite Ho; clear Ho;
      destruct r, s; repeat split; intros; try lia; try tauto;
      try (exfalso; lia); try (left; reflexivity); try (right; reflexivity).
    all: try (destruct H as [H|H]; discriminate H).
    all: try (destruct H as [H1 H2]; lia).
Qed.


(** ** Rounding to nearest, ties to even *)

Lemma rne_shr m n :
  0 <= m -> 0 <= n ->
  let mrs := (shr {| shr_m := m; shr_r := false; shr_s := false |} 0 n).1 in
  round_nearest_even (shr_m mrs) (loc_of_shr_record mrs) = rne m n.
Proof.
  intros Hm Hn. destruct n as [|p|p]; [| |lia].
  - cbn. unfold rne. rewrite Z.div_1_r, Z.mod_1_r. reflexivity.
  - cbn [shr fst]. rewrite iter_pos_nat.
    destruct (shr_n_spec m (Pos.to_nat p) Hm) as [Hq Hloc].
    rewrite positive_nat_Z in Hq, Hloc.
    destruct (Nat.iter _ _ _) as [q r s]. cbn [shr_m shr_r shr_s] in *.
    unfold rne. rewrite <- Hq. destruct Hloc as [Hr Hs].
    pose proof (pow2_gt0 (Z.pos p) ltac:(lia)) as HP.
    assert (Hrange : 0 <= m mod 2 ^ Z.pos p < 2 ^ Z.pos p) by (apply Z.mod_pos_bound; lia).
    destruct (2 * (m mod 2 ^ Z.pos p) <? 2 ^ Z.pos p) eqn:Hlt.
    + apply Z.ltb_lt in Hlt. destruct r; [assert (2 ^ Z.pos p <= 2 * (m mod 2 ^ Z.pos p)) by (by apply Hr); lia|].
      by destruct s.
    + apply Z.ltb_ge in Hlt. assert (r = true) as -> by (by apply Hr).
      destruct (2 * (m mod 2 ^ Z.pos p) =? 2 ^ Z.pos p) eqn:Heq.
      * apply Z.eqb_eq in Heq. destruct s; [assert (2 * (m mod 2 ^ Z.pos p) <> 2 ^ Z.pos p) by (by apply Hs); lia|].
        cbn. by destruct (Z.even q).
      * apply Z.eqb_neq in Heq. assert (s = true) as -> by (apply Hs; lia). reflexivity.
Qed.

Lemma shr_exponent mrs e n : 0 <= n -> (shr mrs e n).2 = e + n.
Proof. intros Hn. destruct n; cbn; lia. Qed.

Lemma shr_record_indep mrs e e' n : (shr mrs e n).1 = (shr mrs e' n).1.
Proof. by destruct n. Qed.

Lemma rne_exact k n : 0 <= n -> rne (k * 2 ^ n) n = k.
Proof.
  intros Hn. unfold rne. pose proof (pow2_gt0 n Hn).
  rewrite Z.div_mul, Z.mod_mul by lia.
  replace (2 * 0 <? 2 ^ n) with true by (symmetry; apply Z.ltb_lt; lia). reflexivity.
Qed.

Lemma rne_mono x y n : 0 <= n -> x <= y -> rne x n <= rne y n.
Proof.
  intros Hn Hxy. unfold rne. pose proof (pow2_gt0 n Hn) as HP.
  set (P := 2 ^ n) in *.
  pose proof (Z.div_mod x P ltac:(lia)) as Hx.
  pose proof (Z.div_mod y P ltac:(lia)) as Hy.
  pose proof (Z.mod_pos_bound x P HP) as Hrx.
  pose proof (Z.mod_pos_bound y P HP) as Hry.
  assert (Hq : x / P <= y / P) by (apply Z.div_le_mono; lia).
  set (qx := x / P) in *. set (qy := y / P) in *.
  set (rx := x mod P) in *. set (ry := y mod P) in *.
  destruct (Z.eq_dec qx qy) as [Heq|Hne].
  - assert (rx <= ry) by nia. rewrite <- Heq.
    destruct (2 * rx <? P) eqn:H1, (2 * ry <? P) eqn:H2;
      destruct (2 * rx =? P) eqn:H3; destruct (2 * ry =? P) eqn:H4;
      destruct (Z.even qx); cbn; lia.
  - assert (qx + 1 <= qy) by lia.
    destruct (2 * rx <? P), (2 * ry <? P), ((2 * rx =? P) && Z.even qx),
      ((2 * ry =? P) && Z.even qy); lia.
Qed.

Lemma rne_le x k n : 0 <= n -> x <= k * 2 ^ n -> rne x n <= k.
Proof. intros Hn Hx. rewrite <- (rne_exact k n Hn). by apply rne_mono. Qed.

Lemma rne_ge x k n : 0 <= n -> k * 2 ^ n <= x -> k <= rne x n.
Proof. intros Hn Hx. rewrite <- (rne_exact k n Hn). by apply rne_mono. Qed.

Lemma rne_scale m n c : 0 <= n -> 0 <= c -> rne (m * 2 ^ c) (n + c) = rne m n.
Proof.
  intros Hn Hc. unfold rne. rewrite pow2_add by lia.
  pose proof (pow2_gt0 n Hn) as HP. pose proof (pow2_gt0 c Hc) as HC.
  rewrite Z.div_mul_cancel_r by lia.
  rewrite Z.mul_mod_distr_r by lia.
  set (r := m mod 2 ^ n). set (P := 2 ^ n) in *. set (C := 2 ^ c) in *.
  replace (2 * (r * C) <? P * C) with (2 * r <? P).
  2:{ destruct (2 * r <? P) eqn:H1; symmetry; [apply Z.ltb_lt in H1; apply Z.ltb_lt|apply Z.ltb_ge in H1; apply Z.ltb_ge]; nia. }
  replace (2 * (r * C) =? P * C) with (2 * r =? P).
  2:{ destruct (2 * r =? P) eqn:H1; symmetry; [apply Z.eqb_eq in H1; apply Z.eqb_eq|apply Z.eqb_neq in H1; apply Z.eqb_neq]; nia. }
  reflexivity.
Qed.

Lemma rne_nonneg x n : 0 <= n -> 0 <= x -> 0 <= rne x n.
Proof. intros Hn Hx. apply rne_ge; [done|lia]. Qed.

(** ** What [binary_round] computes, binary64 *)

Lemma fexp64 k : fexp 53 1024 k = Z.max (k - 53) (-1074).
Proof. reflexivity. Qed.

Lemma Zdigits2_shift m k :
  0 <= k -> Zdigits2 (Z.pos m * 2 ^ k) = Z.pos (digits2_pos m) + k.
Proof.
  intros Hk. pose proof (pow2_gt0 k Hk).
  destruct (Z.pos m * 2 ^ k) as [|q|q] eqn:Hx; [lia| |lia].
  cbn [Zdigits2]. by apply digits2_pos_shift.
Qed.

Lemma digits_le_53 p : Z.pos p < 2 ^ 53 -> Z.pos (digits2_pos p) <= 53.
Proof.
  intros Hp. pose proof (digits2_pos_bounds p) as [Hlo _].
  destruct (Z.le_gt_cases (Z.pos (digits2_pos p)) 53) as [H|H]; [done|].
  assert (2 ^ 53 <= 2 ^ (Z.pos (digits2_pos p) - 1)) by (apply pow2_le; lia). lia.
Qed.

Lemma digits_ge_53 p : 2 ^ 52 <= Z.pos p -> 53 <= Z.pos (digits2_pos p).
Proof.
  intros Hp. pose proof (digits2_pos_bounds p) as [_ Hhi].
  destruct (Z.le_gt_cases 53 (Z.pos (digits2_pos p))) as [H|H]; [done|].
  assert (2 ^ Z.pos (digits2_pos p) <= 2 ^ 52) by (apply pow2_le; lia). lia.
Qed.

Lemma second_shift q E :
  -1074 <= E -> 0 <= q <= 2 ^ 53 ->
  let r := shr_fexp 53 1024 q E loc_Exact in
  (q < 2 ^ 53 -> shr_m r.1 = q /\ r.2 = E) /\
  (q = 2 ^ 53 -> shr_m r.1 = 2 ^ 52 /\ r.2 = E + 1).
Proof.
  intros HE Hq. cbv zeta. split.
  - intros Hlt. unfold shr_fexp. rewrite fexp64. cbn [shr_record_of_loc].
    assert (Hd : Zdigits2 q <= 53).
    { destruct q as [|p|p]; [cbn; lia| |lia]. cbn [Zdigits2]. by apply digits_le_53. }
    destruct (Z.max (Zdigits2 q + E - 53) (-1074) - E) as [|p|p] eqn:Hn; [done|lia|done].
  - intros ->. unfold shr_fexp. rewrite fexp64.
    replace (Zdigits2 (2 ^ 53)) with 54 by reflexivity.
    replace (Z.max (54 + E - 53) (-1074) - E) with 1 by lia.
    cbn. split; [reflexivity|lia].
Qed.

Lemma binary_round_aux_spec B s m e :
  B <= -1074 -> B <= e ->
  e <= fexp 53 1024 (Z.pos (digits2_pos m) + e) ->
  rounds_to B (Z.pos m * 2 ^ (e - B)) s (binary_round_aux 53 1024 s (Z.pos m) e loc_Exact).
Proof.
  intros HB He Hal. rewrite fexp64 in Hal.
  unfold binary_round_aux.
  assert (Hfst : shr_fexp 53 1024 (Z.pos m) e loc_Exact =
                 ((shr {| shr_m := Z.pos m; shr_r := false; shr_s := false |} 0
                       (Z.max (Z.pos (digits2_pos m) + e - 53) (-1074) - e)).1,
                  Z.max (Z.pos (digits2_pos m) + e - 53) (-1074))).
  { unfold shr_fexp. rewrite fexp64. cbn [Zdigits2 shr_record_of_loc].
    rewrite (surjective_pairing (shr _ e _)). f_equal.
    - apply shr_record_indep.
    - rewrite shr_exponent by lia. lia. }
  rewrite Hfst. clear Hfst.
  set (d := Z.pos (digits2_pos m)) in *.
  set (E := Z.max (d + e - 53) (-1074)) in *.
  rewrite rne_shr by lia.
  pose proof (digits2_pos_bounds m) as [Hlo Hhi]. fold d in Hlo, Hhi.
  assert (Hd : 1 <= d) by (unfold d; lia).
  set (n := E - e) in *.
  set (q := rne (Z.pos m) n).
  assert (Hq0 : 0 <= q) by (apply rne_nonneg; lia).
  assert (Hq53 : q <= 2 ^ 53).
  { apply rne_le; [lia|]. rewrite <- pow2_add by lia.
    assert (2 ^ d <= 2 ^ (53 + n)) by (apply pow2_le; lia). lia. }
  assert (Hq52 : -1074 < E -> 2 ^ 52 <= q).
  { intros HE. apply rne_ge; [lia|]. rewrite <- pow2_add by lia.
    replace (52 + n) with (d - 1) by lia. done. }
  assert (Hx : rnd B (Z.pos m * 2 ^ (e - B)) = q * 2 ^ (E - B)).
  { unfold rnd, grid. rewrite Zdigits2_shift by lia. fold d.
    replace (Z.max (d + (e - B) - 53) (-1074 - B)) with (n + (e - B)) by lia.
    rewrite rne_scale by lia. fold q. f_equal. f_equal. lia. }
  destruct (second_shift q E ltac:(lia) ltac:(lia)) as [Hlt Heq].
  destruct (shr_fexp 53 1024 q E loc_Exact) as [mrs'' e''].
  cbn [fst snd] in Hlt, Heq.
  destruct (Z.eq_dec q (2 ^ 53)) as [Hq|Hq].
  - destruct (Heq Hq) as [-> ->]. clear Hlt Heq.
    change (2 ^ 52) with (Z.pos 4503599627370496).
    cbv iota beta.
    destruct (E + 1 <=? 1024 - 53) eqn:Hov.
    + apply Z.leb_le in Hov. cbn [rounds_to]. split; [done|]. split.
      * unfold bounded, canonical_mantissa. rewrite fexp64.
        change (Z.pos (digits2_pos 4503599627370496)) with 53.
        apply andb_true_intro. split; [apply Z.eqb_eq; lia | apply Z.leb_le; lia].
      * rewrite Hx, Hq. change (Z.pos 4503599627370496) with (2 ^ 52).
        rewrite <- !pow2_add by lia. f_equal. lia.
    + apply Z.leb_gt in Hov. cbn [rounds_to]. split; [done|].
      rewrite Hx, Hq. rewrite <- pow2_add by lia. apply pow2_le. lia.
  - destruct (Hlt ltac:(lia)) as [-> ->]. clear Hlt Heq.
    destruct q as [|p|p] eqn:Hp; [ |  | lia].
    + cbn [rounds_to]. split; [done|]. rewrite Hx. lia.
    + destruct (E <=? 1024 - 53) eqn:Hov.
      * apply Z.leb_le in Hov. cbn [rounds_to]. split; [done|]. split; [|by rewrite Hx].
        unfold bounded, canonical_mantissa. rewrite fexp64.
        apply andb_true_intro. split; [apply Z.eqb_eq | apply Z.leb_le; lia].
        pose proof (digits_le_53 p ltac:(lia)).
        destruct (Z.eq_dec E (-1074)) as [HE|HE]; [lia|].
        pose proof (digits_ge_53 p ltac:(lia)). lia.
      * apply Z.leb_gt in Hov. cbn [rounds_to]. split; [done|].
        rewrite Hx. assert (2 ^ 52 <= Z.pos p) by (apply Hq52; lia).
        assert (2 ^ (1024 - B) = 2 ^ 52 * 2 ^ (972 - B)) by (rewrite <- pow2_add by lia; f_equal; lia).
        assert (2 ^ (972 - B) <= 2 ^ (E - B)) by (apply pow2_le; lia).
        pose proof (pow2_gt0 (972 - B) ltac:(lia)). nia.
Qed.

Lemma iter_xO m k : Z.pos (Pos.iter xO m k) = Z.pos m * 2 ^ Z.pos k.
Proof.
  induction k as [|k IH] using Pos.peano_ind.
  - cbn. lia.
  - rewrite Pos.iter_succ, Pos2Z.inj_xO, IH, Pos2Z.inj_succ.
    unfold Z.succ. rewrite pow2_succ by lia. lia.
Qed.

Lemma shl_align_spec m e e' :
  e' <= e ->
  Z.pos (shl_align m e e').1 = Z.pos m * 2 ^ (e - e') /\ (shl_align m e e').2 = e'.
Proof.
  intros Hle. unfold shl_align.
  destruct (e' - e) as [|k|k] eqn:Hk; cbn [fst snd]; [| lia |].
  - replace (e - e') with 0 by lia. cbn. lia.
  - rewrite iter_xO. split; [|done]. f_equal. f_equal. lia.
Qed.

Lemma shl_align_id m e e' : e <= e' -> shl_align m e e' = (m, e).
Proof. intros Hle. unfold shl_align. by destruct (e' - e) as [|k|k] eqn:Hk; [| |lia]. Qed.

Lemma binary_round_aligned s m e :
  e <= fexp 53 1024 (Z.pos (digits2_pos m) + e) ->
  binary_round 53 1024 s m e = binary_round_aux 53 1024 s (Z.pos m) e loc_Exact.
Proof. intros Hal. unfold binary_round. by rewrite shl_align_id. Qed.

Lemma binary_round_spec B s m e :
  B <= -1074 -> B <= e ->
  rounds_to B (Z.pos m * 2 ^ (e - B)) s (binary_round 53 1024 s m e).
Proof.
  intros HB He.
  destruct (Z.le_gt_cases e (fexp 53 1024 (Z.pos (digits2_pos m) + e))) as [Hal|Hal].
  - rewrite binary_round_aligned by done. by apply binary_round_aux_spec.
  - unfold binary_round.
    destruct (shl_align_spec m e (fexp 53 1024 (Z.pos (digits2_pos m) + e)) ltac:(lia))
      as [Hm He'].
    destruct (shl_align _ _ _) as [m1 e1]. cbn [fst snd] in Hm, He'. subst e1.
    rewrite fexp64 in *.
    set (d := Z.pos (digits2_pos m)) in *.
    set (E := Z.max (d + e - 53) (-1074)) in *.
    assert (Hd1 : Z.pos (digits2_pos m1) = d + (e - E)).
    { apply digits2_pos_shift; [lia|done]. }
    replace (Z.pos m * 2 ^ (e - B)) with (Z.pos m1 * 2 ^ (E - B)).
    2:{ rewrite Hm. rewrite <- Z.mul_assoc, <- pow2_add by lia. f_equal. f_equal. lia. }
    apply binary_round_aux_spec; [done|lia|]. rewrite fexp64, Hd1. lia.
Qed.

(** ** The order of canonical values *)

Lemma bounded_spec m e :
  bounded 53 1024 m e = true ->
  -1074 <= e <= 971 /\ Z.pos m < 2 ^ 53 /\ (-1074 < e -> 2 ^ 52 <= Z.pos m).
Proof.
  unfold bounded, canonical_mantissa. rewrite fexp64.
  intros [Hc He]%andb_prop. apply Z.eqb_eq in Hc. apply Z.leb_le in He.
  pose proof (digits2_pos_bounds m) as [Hlo Hhi].
  set (d := Z.pos (digits2_pos m)) in *.
  assert (1 <= d) by (unfold d; lia).
  split; [lia|]. split.
  - assert (2 ^ d <= 2 ^ 53) by (apply pow2_le; lia). lia.
  - intros Hn. assert (d = 53) as Hd by lia. by rewrite Hd in Hlo.
Qed.

Lemma compare_bounded B m1 e1 m2 e2 :
  B <= -1074 ->
  bounded 53 1024 m1 e1 = true -> bounded 53 1024 m2 e2 = true ->
  SFcompare (S754_finite false m1 e1) (S754_finite false m2 e2) =
  Some (Z.pos m1 * 2 ^ (e1 - B) ?= Z.pos m2 * 2 ^ (e2 - B)).
Proof.
  intros HB (He1 & Hm1 & Hn1)%bounded_spec (He2 & Hm2 & Hn2)%bounded_spec.
  cbn [SFcompare]. f_equal.
  pose proof (pow2_gt0 (e1 - B) ltac:(lia)) as HP1.
  pose proof (pow2_gt0 (e2 - B) ltac:(lia)) as HP2.
  destruct (e1 ?= e2) eqn:Hc.
  - apply Z.compare_eq in Hc. subst e2.
    change (Pos.compare_cont Eq m1 m2) with (Z.pos m1 ?= Z.pos m2).
    symmetry. destruct (Z.pos m1 ?= Z.pos m2) eqn:Hm.
    + apply Z.compare_eq in Hm. rewrite Hm. apply Z.compare_refl.
    + apply Z.compare_lt_iff. rewrite Z.compare_lt_iff in Hm.
      by apply Z.mul_lt_mono_pos_r.
    + apply Z.compare_gt_iff. rewrite Z.compare_gt_iff in Hm.
      by apply Z.mul_lt_mono_pos_r.
  - rewrite Z.compare_lt_iff in Hc. symmetry. apply Z.compare_lt_iff.
    assert (2 ^ (e2 - B) = 2 ^ (e2 - e1) * 2 ^ (e1 - B)) as ->
      by (rewrite <- pow2_add by lia; f_equal; lia).
    assert (2 <= 2 ^ (e2 - e1)) by (change 2 with (2 ^ 1) at 1; apply pow2_le; lia).
    specialize (Hn2 ltac:(lia)).
    assert (2 ^ 53 <= 2 ^ (e2 - e1) * Z.pos m2)
      by (change (2 ^ 53) with (2 * 2 ^ 52); apply Z.mul_le_mono_nonneg; lia).
    apply Z.lt_le_trans with (2 ^ 53 * 2 ^ (e1 - B)); [by apply Z.mul_lt_mono_pos_r|].
    rewrite Z.mul_assoc, (Z.mul_comm (Z.pos m2)). apply Z.mul_le_mono_nonneg_r; lia.
  - rewrite Z.compare_gt_iff in Hc. symmetry. apply Z.compare_gt_iff.
    assert (2 ^ (e1 - B) = 2 ^ (e1 - e2) * 2 ^ (e2 - B)) as ->
      by (rewrite <- pow2_add by lia; f_equal; lia).
    assert (2 <= 2 ^ (e1 - e2)) by (change 2 with (2 ^ 1) at 1; apply pow2_le; lia).
    specialize (Hn1 ltac:(lia)).
    assert (2 ^ 53 <= 2 ^ (e1 - e2) * Z.pos m1)
      by (change (2 ^ 53) with (2 * 2 ^ 52); apply Z.mul_le_mono_nonneg; lia).
    apply Z.lt_le_trans with (2 ^ 53 * 2 ^ (e2 - B)); [by apply Z.mul_lt_mono_pos_r|].
    rewrite Z.mul_assoc, (Z.mul_comm (Z.pos m1)). apply Z.mul_le_mono_nonneg_r; lia.
Qed.

(** ** Rounding is monotone *)

Lemma Zdigits2_bounds x : 0 < x -> 2 ^ (Zdigits2 x - 1) <= x < 2 ^ Zdigits2 x.
Proof. intros Hx. destruct x as [|p|p]; try lia. apply digits2_pos_bounds. Qed.

Lemma Zdigits2_pos x : 0 < x -> 1 <= Zdigits2 x.
Proof. intros Hx. destruct x as [|p|p]; try lia. cbn. lia. Qed.

Lemma Zdigits2_mono x y : 0 < x <= y -> Zdigits2 x <= Zdigits2 y.
Proof.
  intros [Hx Hxy]. destruct x as [|p|p], y as [|q|q]; try lia. by apply digits2_pos_mono.
Qed.

Lemma rnd_mono B x y : B <= -1074 -> 0 < x <= y -> rnd B x <= rnd B y.
Proof.
  intros HB [Hx Hxy]. unfold rnd, grid.
  pose proof (Zdigits2_mono x y ltac:(lia)) as Hd.
  pose proof (Zdigits2_bounds x Hx) as [Hxlo Hxhi].
  pose proof (Zdigits2_bounds y ltac:(lia)) as [Hylo Hyhi].
  pose proof (Zdigits2_pos x Hx) as Hdx.
  set (dx := Zdigits2 x) in *. set (dy := Zdigits2 y) in *.
  set (gx := Z.max (dx - 53) (-1074 - B)). set (gy := Z.max (dy - 53) (-1074 - B)).
  destruct (Z.eq_dec gx gy) as [Hg|Hg].
  - rewrite <- Hg. pose proof (pow2_gt0 gx ltac:(lia)).
    pose proof (rne_mono x y gx ltac:(lia) Hxy). nia.
  - assert (Hlt : gx < gy) by lia.
    assert (Hgy : gy = dy - 53) by lia.
    assert (Hdxy : dx < dy) by lia.
    transitivity (2 ^ (dy - 1)).
    + assert (rne x gx <= 2 ^ (dy - 1 - gx)).
      { apply rne_le; [lia|]. rewrite <- pow2_add by lia.
        replace (dy - 1 - gx + gx) with (dy - 1) by lia.
        assert (2 ^ dx <= 2 ^ (dy - 1)) by (apply pow2_le; lia). lia. }
      assert (2 ^ (dy - 1) = 2 ^ (dy - 1 - gx) * 2 ^ gx) as ->
        by (rewrite <- pow2_add by lia; f_equal; lia).
      pose proof (pow2_gt0 gx ltac:(lia)). nia.
    + assert (2 ^ 52 <= rne y gy).
      { apply rne_ge; [lia|]. rewrite <- pow2_add by lia.
        replace (52 + gy) with (dy - 1) by lia. done. }
      assert (2 ^ (dy - 1) = 2 ^ 52 * 2 ^ gy) as ->
        by (rewrite <- pow2_add by lia; f_equal; lia).
      pose proof (pow2_gt0 gy ltac:(lia)). nia.
Qed.

Lemma rnd_nonneg B x : B <= -1074 -> 0 <= x -> 0 <= rnd B x.
Proof.
  intros HB Hx. unfold rnd.
  assert (0 <= grid B x) by (unfold grid; lia).
  pose proof (rne_nonneg x (grid B x) ltac:(done) Hx). pose proof (pow2_gt0 (grid B x) ltac:(done)). nia.
Qed.

(** Two roundings of non-negative values compare as the values do. *)
Lemma rounds_to_leb B x y f g :
  B <= -1074 -> 0 < x <= y ->
  rounds_to B x false f -> rounds_to B y false g -> SFleb f g = true.
Proof.
  intros HB Hxy Hf Hg. pose proof (rnd_mono B x y HB Hxy) as Hle.
  pose proof (rnd_nonneg B x HB ltac:(lia)) as H0.
  destruct f as [sf|sf| |sf mf ef], g as [sg|sg| |sg mg eg]; cbn [rounds_to] in Hf, Hg;
    try done; destruct Hf as [-> Hf], Hg as [-> Hg]; try reflexivity.
  - (* infinity, zero *)
    pose proof (pow2_gt0 (1024 - B) ltac:(lia)). lia.
  - (* infinity, finite *)
    destruct Hg as [Hb Hv]. apply bounded_spec in Hb as (He & Hm & _).
    assert (2 ^ (1024 - B) = 2 ^ 53 * 2 ^ (971 - B)) as Heq
      by (rewrite <- pow2_add by lia; f_equal; lia).
    assert (2 ^ (eg - B) <= 2 ^ (971 - B)) by (apply pow2_le; lia).
    pose proof (pow2_gt0 (eg - B) ltac:(lia)).
    assert (Z.pos mg * 2 ^ (eg - B) < 2 ^ 53 * 2 ^ (eg - B)) by (by apply Z.mul_lt_mono_pos_r).
    assert (2 ^ 53 * 2 ^ (eg - B) <= 2 ^ 53 * 2 ^ (971 - B)) by (apply Z.mul_le_mono_nonneg_l; lia).
    lia.
  - (* finite, zero *)
    destruct Hf as [Hb Hv]. apply bounded_spec in Hb as (He & _).
    pose proof (pow2_gt0 (ef - B) ltac:(lia)).
    assert (0 < Z.pos mf * 2 ^ (ef - B)) by (apply Z.mul_pos_pos; lia). lia.
  - (* finite, finite *)
    destruct Hf as [Hbf Hvf], Hg as [Hbg Hvg].
    unfold SFleb. rewrite (compare_bounded B) by done.
    rewrite Hvf, Hvg. destruct (rnd B x ?= rnd B y) eqn:Hc; try reflexivity.
    rewrite Z.compare_gt_iff in Hc. lia.
Qed.

(** ** Non-negative binary64 values and the operations on them *)

Lemma binary_round_exact s m e :
  bounded 53 1024 m e = true -> binary_round 53 1024 s m e = S754_finite s m e.
Proof.
  intros Hb. pose proof Hb as [Hc He]%andb_prop.
  unfold canonical_mantissa in Hc. apply Z.eqb_eq in Hc.
  rewrite binary_round_aligned by lia.
  unfold binary_round_aux, shr_fexp. cbn [Zdigits2]. rewrite Hc, Z.sub_diag.
  cbn [shr shr_record_of_loc shr_m loc_of_shr_record round_nearest_even Zdigits2].
  rewrite Hc, Z.sub_diag. cbn [shr shr_m]. by rewrite He.
Qed.

Lemma val_nonneg x : 0 <= val x.
Proof. destruct x as [| | |s m e]; cbn; lia. Qed.

Lemma val_pos s m e : bounded 53 1024 m e = true -> 0 < val (S754_finite s m e).
Proof.
  intros (He & _)%bounded_spec. cbn. pose proof (pow2_gt0 (e + 1074) ltac:(lia)).
  apply Z.mul_pos_pos; lia.
Qed.

Lemma normalize_rounds B D e :
  B <= -1074 -> B <= e -> 0 <= D ->
  rounds B (D * 2 ^ (e - B)) (binary_normalize 53 1024 D e false).
Proof.
  intros HB He HD. pose proof (pow2_gt0 (e - B) ltac:(lia)) as HP.
  destruct D as [|p|p]; [| |lia].
  - split; [lia|]. reflexivity.
  - assert (0 < Z.pos p * 2 ^ (e - B)) by (apply Z.mul_pos_pos; lia).
    split; [lia|]. replace (_ =? 0) with false by (symmetry; apply Z.eqb_neq; lia).
    cbn [binary_normalize]. by apply binary_round_spec.
Qed.

Lemma rounds_nn x : nn x = true -> rounds (-1074) (val x) x.
Proof.
  destruct x as [s|s| |[] m e]; try done; intros Hb.
  pose proof (val_pos false m e Hb) as Hpos. split; [lia|].
  replace (_ =? 0) with false by (symmetry; apply Z.eqb_neq; lia).
  pose proof (bounded_spec m e Hb) as (He & _).
  pose proof (binary_round_spec (-1074) false m e ltac:(lia) ltac:(lia)) as Hs.
  rewrite binary_round_exact in Hs by done.
  cbn [val]. by replace (e + 1074) with (e - -1074) by lia.
Qed.

Lemma rounds_leb B V W x y :
  B <= -1074 -> rounds B V x -> rounds B W y -> V <= W -> SFleb x y = true.
Proof.
  intros HB [HV Hx] [HW Hy] Hle.
  destruct (V =? 0) eqn:HV0.
  - destruct x as [sx| | |]; try done.
    destruct (W =? 0).
    + by destruct y.
    + by destruct y as [sy|sy| |sy my ey]; cbn [rounds_to] in Hy; try done; destruct Hy as [-> _].
  - apply Z.eqb_neq in HV0.
    replace (W =? 0) with false in Hy by (symmetry; apply Z.eqb_neq; lia).
    apply (rounds_to_leb B V W); try done. lia.
Qed.

(** A rounded value below a finite one is finite. *)
Lemma rounds_finite B V x y :
  rounds B V x -> SFleb x y = true -> nn y = true -> nn x = true.
Proof.
  intros [HV Hx] Hle Hy.
  destruct (V =? 0).
  - by destruct x.
  - destruct x as [sx|sx| |sx mx ex]; cbn [rounds_to] in Hx; try done.
    + destruct Hx as [-> _]. by destruct y as [sy|sy| |[] my ey].
    + by destruct Hx as [-> [Hb _]].
Qed.

Lemma leb_val x y :
  nn x = true -> nn y = true -> (SFleb x y = true <-> val x <= val y).
Proof.
  destruct x as [sx|sx| |[] mx ex], y as [sy|sy| |[] my ey]; try done; intros Hx Hy.
  - pose proof (val_pos false my ey Hy). cbn [val] in *. split; [lia|done].
  - pose proof (val_pos false mx ex Hx). cbn [val] in *. split; [done|lia].
  - unfold SFleb. rewrite (compare_bounded (-1074)) by done. cbn [val].
    replace (ex - -1074) with (ex + 1074) by lia.
    replace (ey - -1074) with (ey + 1074) by lia.
    destruct (_ ?= _) eqn:Hc.
    + apply Z.compare_eq in Hc. split; [lia|done].
    + rewrite Z.compare_lt_iff in Hc. split; [lia|done].
    + rewrite Z.compare_gt_iff in Hc. split; [done|lia].
Qed.

Lemma leb_trans x y z :
  nn x = true -> nn y = true -> nn z = true ->
  SFleb x y = true -> SFleb y z = true -> SFleb x z = true.
Proof.
  intros Hx Hy Hz Hxy Hyz.
  apply leb_val in Hxy; [|done..]. apply leb_val in Hyz; [|done..].
  apply leb_val; [done..|lia].
Qed.

Lemma val_align m e e' :
  -1074 <= e' <= e ->
  Z.pos (shl_align m e e').1 * 2 ^ (e' + 1074) = Z.pos m * 2 ^ (e + 1074).
Proof.
  intros He. destruct (shl_align_spec m e e' ltac:(lia)) as [-> _].
  rewrite <- Z.mul_assoc, <- pow2_add by lia. f_equal. f_equal. lia.
Qed.

Lemma rounds_sub v a :
  nn v = true -> nn a = true -> val a <= val v ->
  rounds (-1074) (val v - val a) (SFsub 53 1024 v a).
Proof.
  intros Hv Ha Hle.
  destruct a as [sa|sa| |[] ma ea]; try done.
  - destruct v as [sv|sv| |[] mv ev]; try done.
    + split; [cbn; lia|]. by destruct sv, sa; cbn.
    + cbn [SFsub val]. rewrite Z.sub_0_r. by apply (rounds_nn (S754_finite false mv ev)).
  - destruct v as [sv|sv| |[] mv ev]; try done.
    + pose proof (val_pos false ma ea Ha). cbn [val] in *. lia.
    + cbn [SFsub cond_Zopp].
      pose proof (bounded_spec _ _ Hv) as (Hev & _).
      pose proof (bounded_spec _ _ Ha) as (Hea & _).
      set (ez := Z.min ev ea).
      pose proof (val_align mv ev ez ltac:(lia)) as Hmv.
      pose proof (val_align ma ea ez ltac:(lia)) as Hma.
      set (D := Z.pos (shl_align mv ev ez).1 - Z.pos (shl_align ma ea ez).1).
      assert (HD : D * 2 ^ (ez - -1074) = val (S754_finite false mv ev) - val (S754_finite false ma ea)).
      { cbn [val]. replace (ez - -1074) with (ez + 1074) by lia. unfold D. lia. }
      rewrite <- HD. apply normalize_rounds; [lia|lia|].
      pose proof (pow2_gt0 (ez - -1074) ltac:(lia)). nia.
Qed.

Lemma rounds_add p a :
  nn p = true -> nn a = true ->
  rounds (-1074) (val p + val a) (SFadd 53 1024 p a).
Proof.
  intros Hp Ha.
  destruct a as [sa|sa| |[] ma ea]; try done.
  - destruct p as [sp|sp| |[] mp ep]; try done.
    + split; [cbn; lia|]. by destruct sp, sa; cbn.
    + cbn [SFadd val]. rewrite Z.add_0_r. by apply (rounds_nn (S754_finite false mp ep)).
  - destruct p as [sp|sp| |[] mp ep]; try done.
    + cbn [SFadd]. by apply (rounds_nn (S754_finite false ma ea)).
    + cbn [SFadd cond_Zopp].
      pose proof (bounded_spec _ _ Hp) as (Hep & _).
      pose proof (bounded_spec _ _ Ha) as (Hea & _).
      set (ez := Z.min ep ea).
      pose proof (val_align mp ep ez ltac:(lia)) as Hmp.
      pose proof (val_align ma ea ez ltac:(lia)) as Hma.
      set (D := Z.pos (shl_align mp ep ez).1 + Z.pos (shl_align ma ea ez).1).
      assert (HD : D * 2 ^ (ez - -1074) = val (S754_finite false mp ep) + val (S754_finite false ma ea)).
      { cbn [val]. replace (ez - -1074) with (ez + 1074) by lia. unfold D. lia. }
      rewrite <- HD. apply normalize_rounds; [lia|lia|]. unfold D. lia.
Qed.

Lemma rounds_add_opp p a :
  nn p = true -> nn a = true -> val p <= val a ->
  rounds (-1074) (val a - val p) (SFadd 53 1024 (SFopp p) a).
Proof.
  intros Hp Ha Hle.
  destruct a as [sa|sa| |[] ma ea]; try done.
  - destruct p as [sp|sp| |[] mp ep]; try done.
    + split; [cbn; lia|]. by destruct sp, sa; cbn.
    + pose proof (val_pos false mp ep Hp). cbn [val] in *. lia.
  - destruct p as [sp|sp| |[] mp ep]; try done.
    + cbn [SFadd SFopp val]. rewrite Z.sub_0_r. by apply (rounds_nn (S754_finite false ma ea)).
    + cbn [SFadd SFopp negb cond_Zopp].
      pose proof (bounded_spec _ _ Hp) as (Hep & _).
      pose proof (bounded_spec _ _ Ha) as (Hea & _).
      set (ez := Z.min ep ea).
      pose proof (val_align mp ep ez ltac:(lia)) as Hmp.
      pose proof (val_align ma ea ez ltac:(lia)) as Hma.
      set (D := - Z.pos (shl_align mp ep ez).1 + Z.pos (shl_align ma ea ez).1).
      assert (HD : D * 2 ^ (ez - -1074) = val (S754_finite false ma ea) - val (S754_finite false mp ep)).
      { cbn [val]. replace (ez - -1074) with (ez + 1074) by lia. unfold D. lia. }
      rewrite <- HD. apply normalize_rounds; [lia|lia|].
      pose proof (pow2_gt0 (ez - -1074) ltac:(lia)). nia.
Qed.

Lemma digits2_pos_mul p q :
  Z.pos (digits2_pos p) + Z.pos (digits2_pos q) - 1 <= Z.pos (digits2_pos (p * q)).
Proof.
  pose proof (digits2_pos_bounds p) as [Hp _]. pose proof (digits2_pos_bounds q) as [Hq _].
  pose proof (digits2_pos_bounds (p * q)) as [_ Hpq].
  set (dp := Z.pos (digits2_pos p)) in *. set (dq := Z.pos (digits2_pos q)) in *.
  set (d := Z.pos (digits2_pos (p * q))) in *.
  assert (1 <= dp) by (unfold dp; lia). assert (1 <= dq) by (unfold dq; lia).
  destruct (Z.le_gt_cases (dp + dq - 1) d) as [H'|H']; [done|].
  assert (2 ^ d <= 2 ^ (dp - 1 + (dq - 1))) by (apply pow2_le; unfold d; lia).
  rewrite pow2_add in * by lia. rewrite Pos2Z.inj_mul in Hpq.
  pose proof (pow2_gt0 (dp - 1) ltac:(lia)). pose proof (pow2_gt0 (dq - 1) ltac:(lia)).
  assert (2 ^ (dp - 1) * 2 ^ (dq - 1) <= Z.pos p * Z.pos q) by (apply Z.mul_le_mono_nonneg; lia).
  lia.
Qed.

Lemma rounds_mul ms es x :
  bounded 53 1024 ms es = true -> nn x = true ->
  rounds (-2148) (val (S754_finite false ms es) * val x)
         (SFmul 53 1024 (S754_finite false ms es) x).
Proof.
  intros Hs Hx. destruct x as [sx|sx| |[] mx ex]; try done.
  - cbn [val]. rewrite Z.mul_0_r. split; [cbn; lia|]. cbn. reflexivity.
  - cbn [SFmul xorb].
    pose proof (bounded_spec _ _ Hs) as (Hes & _).
    pose proof (bounded_spec _ _ Hx) as (Hex & _).
    assert (Hv : Z.pos (ms * mx) * 2 ^ (es + ex - -2148) =
                 val (S754_finite false ms es) * val (S754_finite false mx ex)).
    { cbn [val]. replace (es + ex - -2148) with (es + 1074 + (ex + 1074)) by lia.
      rewrite pow2_add by lia. rewrite Pos2Z.inj_mul. ring. }
    pose proof (val_pos false ms es Hs). pose proof (val_pos false mx ex Hx).
    assert (0 < val (S754_finite false ms es) * val (S754_finite false mx ex))
      by (by apply Z.mul_pos_pos).
    split; [lia|]. replace (_ =? 0) with false by (symmetry; apply Z.eqb_neq; lia).
    rewrite <- Hv. apply binary_round_aux_spec; [lia|lia|].
    rewrite fexp64. pose proof (digits2_pos_mul ms mx).
    apply andb_prop in Hs as [Hcs _]. apply andb_prop in Hx as [Hcx _].
    unfold canonical_mantissa in Hcs, Hcx. rewrite fexp64 in Hcs, Hcx.
    apply Z.eqb_eq in Hcs, Hcx. lia.
Qed.

Lemma binary_round_aux_opp s m e l :
  binary_round_aux 53 1024 (negb s) m e l = SFopp (binary_round_aux 53 1024 s m e l).
Proof.
  unfold binary_round_aux.
  destruct (shr_fexp 53 1024 m e l) as [mrs' e'].
  destruct (shr_fexp 53 1024 _ e' loc_Exact) as [mrs'' e''].
  destruct (shr_m mrs''); try done. by destruct (_ <=? _).
Qed.

Lemma mul_opp ms es x :
  nn x = true ->
  SFmul 53 1024 (S754_finite true ms es) x =
  SFopp (SFmul 53 1024 (S754_finite false ms es) x).
Proof.
  intros Hx. destruct x as [sx|sx| |[] mx ex]; try done.
  cbn [SFmul xorb]. apply (binary_round_aux_opp false).
Qed.


Lemma rounds_cases B V x : rounds B V x -> nn x = true \/ x = S754_infinity false.
Proof.
  intros [HV Hx]. destruct (V =? 0).
  - left. by destruct x.
  - destruct x as [sx|sx| |sx mx ex]; cbn [rounds_to] in Hx; try done.
    + by left.
    + right. by destruct Hx as [-> _].
    + left. by destruct Hx as [-> [Hb _]].
Qed.

Lemma entry_ok_nn a : entry_ok a = true -> nn a = true /\ F64.leb a F64.one = true.
Proof.
  unfold entry_ok, in_unit. intros [Hv [H0 H1]%andb_prop]%andb_prop. split; [|done].
  by destruct a as [sa|[]| |[] ma ea].
Qed.

Lemma nn_one : nn F64.one = true.
Proof. reflexivity. Qed.

Lemma nn_in_unit r : nn r = true -> F64.leb r F64.one = true -> in_unit r = true.
Proof.
  intros Hr H1. unfold in_unit. rewrite H1, andb_true_r. by destruct r as [sr|[]| |[] mr er].
Qed.

Lemma in_unit_not_nan r : in_unit r = true -> is_nan r = false.
Proof. by destruct r. Qed.

Lemma flat_segment ss dx a :
  nn dx = true -> nn a = true -> SFleb a F64.one = true ->
  in_unit (SFadd 53 1024 (SFmul 53 1024 (S754_zero ss) dx) a) = true.
Proof.
  intros Hdx Ha Ha1.
  destruct dx as [sd|sd| |[] md ed]; try done;
    destruct a as [sa|sa| |[] ma ea]; try done;
    cbn [SFmul SFadd xorb];
    try (unfold in_unit, F64.leb; by rewrite Ha1);
    by destruct ss; try destruct sd; destruct sa.
Qed.

Lemma segment_in_unit xj xj1 a b v :
  nn xj = true -> nn xj1 = true -> nn (F64.sub xj1 xj) = true ->
  entry_ok a = true ->
  nn v = true -> F64.leb xj v = true -> F64.leb xj1 v = false ->
  let h := F64.sub xj1 xj in
  let slope := F64.div (F64.sub b a) h in
  match slope with
  | S754_zero _ => true
  | S754_finite false m e => bounded 53 1024 m e && in_unit (F64.add (F64.mul slope h) a)
  | S754_finite true m e => bounded 53 1024 m e && F64.leb (SFabs (F64.mul slope h)) a
  | _ => false
  end = true ->
  in_unit (F64.add (F64.mul slope (F64.sub v xj)) a) = true.
Proof.
  intros Hxj Hxj1 Hh [Ha Ha1]%entry_ok_nn Hv Hlo Hhi. cbv zeta.
  unfold F64.sub, F64.mul, F64.add, F64.div, F64.leb, F64.prec, F64.emax in *.
  generalize (SFdiv 53 1024 (SFsub 53 1024 b a) (SFsub 53 1024 xj1 xj)) as slope. intros slope.
  remember (SFsub 53 1024 xj1 xj) as h eqn:Eh.
  apply leb_val in Hlo; [|done..].
  assert (Hvx : val v <= val xj1).
  { destruct (Z.le_gt_cases (val xj1) (val v)) as [H|H]; [|lia].
    apply leb_val in H; [|done..]. congruence. }
  pose proof (rounds_sub v xj Hv Hxj Hlo) as Rdx.
  pose proof (rounds_sub xj1 xj Hxj1 Hxj ltac:(lia)) as Rh. rewrite <- Eh in Rh.
  remember (SFsub 53 1024 v xj) as dx eqn:Edx.
  assert (Ldx : SFleb dx h = true) by (apply (rounds_leb (-1074) _ _ _ _ ltac:(lia) Rdx Rh); lia).
  pose proof (rounds_finite _ _ _ _ Rdx Ldx Hh) as Hdx.
  apply leb_val in Ldx; [|done..].
  destruct slope as [ss|ss| |[] ms es]; intros Hseg; try done.
  - (* a flat segment *)
    by apply flat_segment.
  - (* a falling segment *)
    apply andb_prop in Hseg as [Hs Hseg].
    rewrite mul_opp in Hseg |- * by done.
    pose proof (rounds_mul ms es dx Hs Hdx) as Rp.
    pose proof (rounds_mul ms es h Hs Hh) as RP.
    remember (SFmul 53 1024 (S754_finite false ms es) dx) as p eqn:Ep.
    remember (SFmul 53 1024 (S754_finite false ms es) h) as P eqn:EP.
    assert (Lp : SFleb p P = true).
    { apply (rounds_leb (-2148) _ _ _ _ ltac:(lia) Rp RP).
      apply Z.mul_le_mono_nonneg_l; [apply val_nonneg|done]. }
    assert (HP : nn P = true /\ SFleb P a = true).
    { destruct (rounds_cases _ _ _ RP) as [HP| ->].
      - split; [done|]. by destruct P as [sP|sP| |[] mP eP].
      - by destruct a as [sa|sa| |[] ma ea]. }
    destruct HP as [HP LP].
    pose proof (rounds_finite _ _ _ _ Rp Lp HP) as Hp.
    apply leb_val in Lp; [|done..]. apply leb_val in LP; [|done..].
    pose proof (rounds_add_opp p a Hp Ha ltac:(lia)) as Rr.
    remember (SFadd 53 1024 (SFopp p) a) as r eqn:Er.
    assert (Lr : SFleb r a = true).
    { apply (rounds_leb (-1074) _ _ _ _ ltac:(lia) Rr (rounds_nn a Ha)). pose proof (val_nonneg p). lia. }
    pose proof (rounds_finite _ _ _ _ Rr Lr Ha) as Hr.
    apply nn_in_unit; [done|]. by apply (leb_trans r a F64.one).
  - (* a rising segment *)
    apply andb_prop in Hseg as [Hs He].
    pose proof (rounds_mul ms es dx Hs Hdx) as Rp.
    pose proof (rounds_mul ms es h Hs Hh) as RP.
    remember (SFmul 53 1024 (S754_finite false ms es) dx) as p eqn:Ep.
    remember (SFmul 53 1024 (S754_finite false ms es) h) as P eqn:EP.
    assert (Lp : SFleb p P = true).
    { apply (rounds_leb (-2148) _ _ _ _ ltac:(lia) Rp RP).
      apply Z.mul_le_mono_nonneg_l; [apply val_nonneg|done]. }
    assert (HP : nn P = true).
    { destruct (rounds_cases _ _ _ RP) as [HP|HP]; [done|].
      rewrite HP in He. by destruct a as [sa|sa| |[] ma ea]. }
    pose proof (rounds_finite _ _ _ _ Rp Lp HP) as Hp.
    apply leb_val in Lp; [|done..].
    pose proof (rounds_add p a Hp Ha) as Rr. pose proof (rounds_add P a HP Ha) as Re.
    remember (SFadd 53 1024 p a) as r eqn:Er. remember (SFadd 53 1024 P a) as e eqn:Ee.
    assert (Lr : SFleb r e = true) by (apply (rounds_leb (-1074) _ _ _ _ ltac:(lia) Rr Re); lia).
    apply andb_prop in He as [He0 He1].
    assert (Hne : nn e = true).
    { destruct (rounds_cases _ _ _ Re) as [H|H]; [done|]. by rewrite H in He1. }
    pose proof (rounds_finite _ _ _ _ Rr Lr Hne) as Hr.
    apply nn_in_unit; [done|]. by apply (leb_trans r e F64.one).
Qed.

Lemma scan_spec key arr i :
  (i <= scan key arr i <= i + length arr)%nat /\
  (forall t, (t < scan key arr i - i)%nat -> F64.leb (nth t arr S754_nan) key = true) /\
  ((scan key arr i - i < length arr)%nat ->
   F64.leb (nth (scan key arr i - i) arr S754_nan) key = false).
Proof.
  revert i. induction arr as [|a rest IH]; intros i; cbn [scan length].
  - repeat split; intros; lia.
  - destruct (F64.leb a key) eqn:Ha.
    + destruct (IH (S i)) as (Hr & Hlo & Hhi). split; [lia|]. split.
      * intros [|t] Ht; [done|]. cbn [nth]. apply Hlo. lia.
      * intros Hlt.
        replace (scan key rest (S i) - i)%nat with (S (scan key rest (S i) - S i)) by lia.
        cbn [nth]. apply Hhi. lia.
    + split; [lia|]. split; [intros t Ht; lia|].
      intros _. by rewrite Nat.sub_diag.
Qed.

Lemma leb_of_not_ltb x v :
  nn x = true -> valid_binary 53 1024 v = true -> is_nan v = false ->
  F64.ltb v x = false -> F64.leb x v = true.
Proof.
  intros Hx Hv Hnan. unfold F64.ltb, F64.leb, SFltb, SFleb.
  destruct x as [sx|sx| |[] mx ex], v as [sv|[]| |[] mv ev]; try done.
  cbn [valid_binary nn] in Hx, Hv.
  rewrite !(compare_bounded (-1074)) by done.
  destruct (_ ?= _) eqn:H1; try done; intros _.
  - apply Z.compare_eq in H1. rewrite H1, Z.compare_refl. done.
  - rewrite Z.compare_gt_iff in H1. apply Z.compare_lt_iff in H1. by rewrite H1.
Qed.

Lemma nn_between x y v :
  valid_binary 53 1024 v = true ->
  nn x = true -> F64.leb x v = true ->
  nn y = true -> F64.leb y v = false ->
  nn v = true.
Proof.
  intros Hv Hx Hxv Hy Hyv.
  destruct v as [sv|[]| |[] mv ev]; try done;
    try (by destruct x as [sx|sx| |[] mx ex]); by destruct y as [sy|sy| |[] my ey].
Qed.

Lemma forallb_nth_true {A} (f : A -> bool) (l : list A) (j : nat) (d : A) :
  forallb f l = true -> (j < length l)%nat -> f (nth j l d) = true.
Proof.
  intros Hall Hj. rewrite forallb_forall in Hall. apply Hall, nth_In, Hj.
Qed.

Lemma forallb_seq_true (f : nat -> bool) (n j : nat) :
  forallb f (seq 0 n) = true -> (j < n)%nat -> f j = true.
Proof.
  intros Hall Hj. rewrite forallb_forall in Hall. apply Hall, in_seq. lia.
Qed.

(** Under the checks on the sample points and on the channel, every
    value [np.interp] returns at a valid coordinate that is not NaN lies
    in [0,1]. *)
Lemma interp1_in_unit xp fp v :
  xp <> [] -> length fp = length xp ->
  knots_ok xp = true -> channel_ok xp fp = true ->
  valid_binary 53 1024 v = true -> is_nan v = false ->
  in_unit (interp1 xp fp v) = true.
Proof.
  intros Hne Hlen [Hkn Hh]%andb_prop [Hent Hseg]%andb_prop Hv Hnan.
  assert (Hentry : forall j, (j < length xp)%nat -> in_unit (nth j fp S754_nan) = true).
  { intros j Hj. pose proof (forallb_nth_true _ _ j S754_nan Hent ltac:(lia)) as H.
    by apply andb_prop in H as [_ H]. }
  destruct xp as [|x0 rest]; [done|]. clear Hne.
  unfold interp1. rewrite Hnan. unfold binary_search.
  cbn [length hd tl] in *.
  destruct (F64.ltb (List.last (x0 :: rest) S754_nan) v) eqn:Hlast.
  { replace (Z.of_nat (S (length rest)) =? -1) with false by (symmetry; apply Z.eqb_neq; lia).
    rewrite Z.eqb_refl. apply Hentry. lia. }
  destruct (F64.ltb v x0) eqn:Hhd.
  { cbn. apply Hentry. lia. }
  destruct (scan_spec v rest 0) as (Hr & Hlo & Hhi).
  rewrite Nat.sub_0_r in Hlo, Hhi.
  set (k := scan v rest 0) in *.
  replace (Z.of_nat k =? -1) with false by (symmetry; apply Z.eqb_neq; lia).
  replace (Z.of_nat k =? Z.of_nat (S (length rest))) with false
    by (symmetry; apply Z.eqb_neq; lia).
  rewrite Nat2Z.id.
  destruct (Z.of_nat k =? Z.of_nat (S (length rest)) - 1) eqn:Hend.
  { apply Hentry. lia. }
  apply Z.eqb_neq in Hend. assert (Hk : (k < length rest)%nat) by lia.
  destruct (F64.eqb (nth k (x0 :: rest) S754_nan) v).
  { apply Hentry. lia. }
  assert (Hx0 : nn x0 = true) by (apply (forallb_nth_true nn (x0 :: rest) 0 S754_nan Hkn); cbn; lia).
  assert (Hx0v : F64.leb x0 v = true) by by apply leb_of_not_ltb.
  assert (Hxj1 : nn (nth (S k) (x0 :: rest) S754_nan) = true)
    by (apply (forallb_nth_true nn (x0 :: rest) (S k) S754_nan Hkn); cbn; lia).
  assert (Hxj : nn (nth k (x0 :: rest) S754_nan) = true)
    by (apply (forallb_nth_true nn (x0 :: rest) k S754_nan Hkn); cbn; lia).
  assert (Hhi' : F64.leb (nth (S k) (x0 :: rest) S754_nan) v = false) by (by apply Hhi).
  assert (Hlo' : F64.leb (nth k (x0 :: rest) S754_nan) v = true).
  { destruct k as [|k']; [done|]. cbn [nth]. apply Hlo. lia. }
  assert (Hnn : nn v = true) by (by apply (nn_between x0 (nth (S k) (x0 :: rest) S754_nan))).
  pose proof (forallb_seq_true _ _ k Hh ltac:(cbn; lia)) as Hhk.
  pose proof (forallb_seq_true _ _ k Hseg ltac:(cbn; lia)) as Hsk.
  pose proof (forallb_nth_true _ _ k S754_nan Hent ltac:(lia)) as Hak.
  pose proof (segment_in_unit _ _ _ (nth (S k) fp S754_nan) v Hxj Hxj1 Hhk Hak Hnn Hlo' Hhi' Hsk)
    as Hin.
  cbv zeta in Hin. by rewrite (in_unit_not_nan _ Hin).
Qed.

(** ** Values that are not NaN *)

Lemma binary_round_valid s m e : valid_binary 53 1024 (binary_round 53 1024 s m e) = true.
Proof.
  pose proof (binary_round_spec (Z.min e (-1074)) s m e ltac:(lia) ltac:(lia)) as H.
  destruct (binary_round 53 1024 s m e) as [| | |s' m' e']; try done.
  by destruct H as (_ & Hb & _).
Qed.

Lemma f64_of_f32_valid x : valid_binary 53 1024 (f64_of_f32 x) = true.
Proof. destruct x as [| | |s m e]; try done. apply binary_round_valid. Qed.

Lemma shr_1_keeps_nonneg mrs : 0 <= shr_m mrs -> 0 <= shr_m (shr_1 mrs).
Proof.
  destruct mrs as [m r s]. cbn [shr_m]. intros Hm. rewrite shr_1_nonneg by done.
  cbn [shr_m]. lia.
Qed.

Lemma shr_keeps_nonneg mrs e n : 0 <= shr_m mrs -> 0 <= shr_m (shr mrs e n).1.
Proof.
  intros Hm. destruct n as [|p|p]; try done. cbn [shr fst]. rewrite iter_pos_nat.
  induction (Pos.to_nat p) as [|k IH]; [done|]. rewrite Nat.iter_succ.
  by apply shr_1_keeps_nonneg.
Qed.

Lemma binary_round_aux_not_nan prec emax s m e l :
  0 <= m -> is_nan (binary_round_aux prec emax s m e l) = false.
Proof.
  intros Hm. unfold binary_round_aux, shr_fexp.
  pose proof (shr_keeps_nonneg (shr_record_of_loc m l) e
                (fexp prec emax (Zdigits2 m + e) - e)) as H1.
  destruct (shr (shr_record_of_loc m l) e _) as [mrs' e'].
  cbn [fst] in H1. specialize (H1 ltac:(by destruct l as [|[]])).
  set (q := round_nearest_even (shr_m mrs') (loc_of_shr_record mrs')).
  assert (Hq : 0 <= q).
  { unfold q, round_nearest_even.
    destruct (loc_of_shr_record mrs') as [|[]]; try lia. destruct (Z.even _); lia. }
  pose proof (shr_keeps_nonneg (shr_record_of_loc q loc_Exact) e'
                (fexp prec emax (Zdigits2 q + e') - e') Hq) as H2.
  destruct (shr (shr_record_of_loc q loc_Exact) e' _) as [mrs'' e''].
  cbn [fst] in H2. destruct (shr_m mrs'') as [|p|p]; try done.
  by destruct (_ <=? _).
Qed.

Lemma binary_round_not_nan prec emax s m e : is_nan (binary_round prec emax s m e) = false.
Proof.
  unfold binary_round. destruct (shl_align _ _ _) as [mz ez].
  by apply binary_round_aux_not_nan.
Qed.

Lemma binary_normalize_not_nan prec emax m e s :
  is_nan (binary_normalize prec emax m e s) = false.
Proof. destruct m; [done| |]; apply binary_round_not_nan. Qed.

Lemma SFdiv_not_nan prec emax x sy my ey :
  is_nan x = false -> is_nan (SFdiv prec emax x (S754_finite sy my ey)) = false.
Proof.
  intros Hx. destruct x as [sx|sx| |sx mx ex]; try done.
  cbn [SFdiv]. unfold SFdiv_core_binary.
  set (m' := match _ - _ - _ with Z0 => Z.pos mx | Z.pos _ => Z.shiftl _ _ | Z.neg _ => 0 end).
  assert (Hm' : 0 <= m').
  { unfold m'. destruct (_ - _ - _) as [|p|p]; try lia. by apply Z.shiftl_nonneg. }
  pose proof (Z.div_pos m' (Z.pos my) Hm' ltac:(lia)) as Hq.
  unfold Z.div in Hq. destruct (Z.div_eucl m' (Z.pos my)) as [q r]. cbn [fst] in Hq.
  by apply binary_round_aux_not_nan.
Qed.

Lemma SFsub_finite_not_nan prec emax sx mx ex y :
  is_nan y = false -> is_nan (SFsub prec emax (S754_finite sx mx ex) y) = false.
Proof.
  intros Hy. destruct y as [sy|sy| |sy my ey]; try done.
  cbn [SFsub]. apply binary_normalize_not_nan.
Qed.

Lemma f64_of_f32_not_nan x : is_nan x = false -> is_nan (f64_of_f32 x) = false.
Proof. destruct x as [| | |s m e]; try done. intros _. apply binary_round_not_nan. Qed.

Lemma knots_linspace256 : knots_ok (np_linspace01 256) = true.
Proof. vm_compute. reflexivity. Qed.

(* ================================================================= *)
(** ** The intensity decoder *)

Section IntensityDecoder.

Variable libm_exp : spec_float -> spec_float.
Variable libm_log : positive -> Z -> spec_float.
Variable libm_logf : positive -> Z -> spec_float.
Variable VIRIDIS : list vec3.

Abbreviation callback := (lidar_callback libm_exp libm_log libm_logf VIRIDIS).
Abbreviation colour := (ramp_color libm_exp libm_log libm_logf VIRIDIS).
Abbreviation coordinate := (intensity_col libm_exp libm_log libm_logf).

Lemma lidar_callback_returns w :
  (length (raw_data w) mod 16 = 0)%nat -> VIRIDIS <> [] ->
  exists flat,
    callback w =
    inr {| raw_data := raw_data w;
           heap := heap w ++ [flat];
           point_list :=
             {| points := map flip_x (raw_samples (raw_data w));
                colors := map (fun r => colour r.2) (raw_samples (raw_data w)) |};
           actor_colors := actor_colors w |}.
Proof.
  intros Hlen Hramp.
  unfold lidar_callback, np_frombuffer.
  replace (length (raw_data w) mod 4 =? 0)%nat with true
    by (symmetry; apply Nat.eqb_eq; lia).
  cbn [bind]. unfold np_reshape4.
  destruct (np_copy FromBuffer w) as [data w1] eqn:Hcopy.
  assert (Hel : contents w1 data = f4_items (raw_data w)).
  { pose proof (contents_np_copy FromBuffer w) as H. by rewrite Hcopy in H. }
  rewrite Hel, length_f4_items.
  replace (length (raw_data w) / 4 / 4 * 4 =? length (raw_data w) / 4)%nat with true
    by (symmetry; apply Nat.eqb_eq; lia).
  cbn [bind]. unfold np_interp.
  rewrite length_VID_RANGE, !length_map.
  destruct (length VIRIDIS =? 0)%nat eqn:Hz.
  { apply Nat.eqb_eq in Hz. by destruct VIRIDIS. }
  rewrite Nat.eqb_refl. cbn [negb bind].
  unfold np_copy in Hcopy. injection Hcopy as <- <-.
  rewrite contents_set_col0 by (cbn [heap]; rewrite length_app; cbn; lia).
  rewrite Hel, rows4_negate_x. fold (raw_samples (raw_data w)).
  eexists. f_equal. unfold set_point_list, set_col0, write.
  cbn [raw_data heap actor_colors]. f_equal.
  - rewrite insert_app_r_alt by lia. rewrite Nat.sub_diag. reflexivity.
  - f_equal.
    + unfold Vector3dVector. rewrite !map_map. apply map_ext.
      by intros [[[a b] c] d].
    + rewrite Vector3dVector_id, !map_map.
      rewrite (np_c_map _ _ _ (raw_samples (raw_data w))).
      apply map_ext. by intros [[[a b] c] d].
Qed.

Lemma lidar_callback_raises w :
  (length (raw_data w) mod 16 <> 0)%nat \/ VIRIDIS = [] ->
  callback w = inl ValueError.
Proof.
  intros Hbad. unfold lidar_callback, np_frombuffer.
  destruct (length (raw_data w) mod 4 =? 0)%nat eqn:H4; [|done].
  apply Nat.eqb_eq in H4. cbn [bind]. unfold np_reshape4.
  destruct (np_copy FromBuffer w) as [data w1] eqn:Hcopy.
  assert (Hel : contents w1 data = f4_items (raw_data w)).
  { pose proof (contents_np_copy FromBuffer w) as H. by rewrite Hcopy in H. }
  rewrite Hel, length_f4_items.
  destruct (length (raw_data w) / 4 / 4 * 4 =? length (raw_data w) / 4)%nat eqn:H16; [|done].
  apply Nat.eqb_eq in H16. cbn [bind].
  destruct Hbad as [Hbad| ->]; [lia|]. reflexivity.
Qed.

Lemma lidar_callback_cases w :
  callback w = inl ValueError \/
  exists flat,
    callback w =
    inr {| raw_data := raw_data w;
           heap := heap w ++ [flat];
           point_list :=
             {| points := map flip_x (raw_samples (raw_data w));
                colors := map (fun r => colour r.2) (raw_samples (raw_data w)) |};
           actor_colors := actor_colors w |}.
Proof.
  destruct (decide (length (raw_data w) mod 16 = 0)%nat) as [Hlen|Hlen].
  - destruct VIRIDIS as [|c ramp] eqn:Hramp.
    + left. rewrite <- Hramp. apply lidar_callback_raises. by right.
    + right. rewrite <- Hramp. apply lidar_callback_returns; [done|]. by rewrite Hramp.
  - left. apply lidar_callback_raises. by left.
Qed.

Lemma length_raw_samples bs P :
  length bs = (16 * P)%nat -> length (raw_samples bs) = P.
Proof.
  intros Hlen. unfold raw_samples. rewrite length_rows4, length_f4_items, Hlen. lia.
Qed.

(** The logarithm of a negative or NaN intensity is NaN, and so are the
    ramp coordinate and the three channels interpolated at it. *)
Lemma ramp_color_nan i :
  negative_or_nan i = true -> coordinate i = S754_nan /\ colour i = nan3.
Proof.
  intros Hi.
  assert (Hc : coordinate i = S754_nan).
  { unfold intensity_col.
    replace (np_log libm_logf i) with S754_nan by by destruct i as [|[]| |[]]. 
    reflexivity. }
  split; [exact Hc|]. unfold ramp_color. by rewrite Hc.
Qed.

(** The logarithm of a zero intensity is minus infinity, and whatever
    the divisor the ramp coordinate is not finite. *)
Lemma ramp_coordinate_of_zero i :
  is_zero i = true ->
  np_log libm_logf i = S754_infinity true /\ is_finite (coordinate i) = false.
Proof.
  intros Hi. destruct i as [s| | |]; try done. split; [done|].
  unfold intensity_col. cbn [np_log].
  by destruct (f32_of_f64 _) as [[]|[]| |[] m e].
Qed.

(** With a negative finite divisor the coordinate of a zero intensity is
    minus infinity. *)
Lemma ramp_coordinate_of_zero_neg i :
  is_zero i = true ->
  negative_finite (f32_of_f64 (log_attenuation libm_exp libm_log)) = true ->
  coordinate i = S754_infinity true.
Proof.
  intros Hi Hd. destruct i as [s| | |]; try done.
  unfold intensity_col. cbn [np_log].
  by destruct (f32_of_f64 _) as [[]|[]| |[] m e].
Qed.

Lemma ramp_color_ends i :
  length VIRIDIS = 256%nat ->
  Forall (fun c => in_unit3 c = true) VIRIDIS ->
  F64.leb (f64_of_f32 (coordinate i)) F64.zero = true \/
  F64.leb F64.one (f64_of_f32 (coordinate i)) = true ->
  in_unit3 (colour i) = true.
Proof.
  intros Hrows Hramp Hends. unfold ramp_color, in_unit3, VID_RANGE.
  rewrite Hrows. cbn [fst snd].
  apply andb_true_intro; split; [apply andb_true_intro; split|].
  - destruct (interp1_ends (map (fun c : vec3 => c.1.1) VIRIDIS) _
                ltac:(by rewrite length_map) Hends) as [-> | ->];
      (apply in_unit_channel; [|done|lia]);
      intros c [[H _]%andb_prop _]%andb_prop; exact H.
  - destruct (interp1_ends (map (fun c : vec3 => c.1.2) VIRIDIS) _
                ltac:(by rewrite length_map) Hends) as [-> | ->];
      (apply in_unit_channel; [|done|lia]);
      intros c [[_ H]%andb_prop _]%andb_prop; exact H.
  - destruct (interp1_ends (map (fun c : vec3 => c.2) VIRIDIS) _
                ltac:(by rewrite length_map) Hends) as [-> | ->];
      (apply in_unit_channel; [|done|lia]);
      intros c [_ H]%andb_prop; exact H.
Qed.

(** With a logarithm that is never NaN at a positive finite argument
    and a negative finite divisor, the ramp coordinate of an intensity
    that is neither negative nor NaN is not NaN. *)
Lemma coordinate_not_nan i :
  (forall m e, is_nan (libm_logf m e) = false) ->
  negative_finite (f32_of_f64 (log_attenuation libm_exp libm_log)) = true ->
  negative_or_nan i = false ->
  is_nan (coordinate i) = false.
Proof.
  intros Hlog Hd Hi. unfold intensity_col.
  destruct (f32_of_f64 _) as [sd|sd| |[] md ed]; try done.
  change F32.one with (S754_finite false 8388608 (-23)).
  apply SFsub_finite_not_nan, SFdiv_not_nan.
  destruct i as [si|[]| |[] mi ei]; try done. apply Hlog.
Qed.

(** On a ramp that passes [ramp_ok] the colour of such an intensity is
    in [0,1] in its three channels, wherever its coordinate falls. *)
Lemma ramp_color_in_unit i :
  length VIRIDIS = 256%nat ->
  ramp_ok VIRIDIS = true ->
  (forall m e, is_nan (libm_logf m e) = false) ->
  negative_finite (f32_of_f64 (log_attenuation libm_exp libm_log)) = true ->
  negative_or_nan i = false ->
  in_unit3 (colour i) = true.
Proof.
  intros Hrows Hok Hlog Hd Hi. unfold ramp_ok in Hok. cbv zeta in Hok.
  apply andb_prop in Hok as [[HR HG]%andb_prop HB].
  pose proof (f64_of_f32_valid (coordinate i)) as Hv.
  pose proof (f64_of_f32_not_nan _ (coordinate_not_nan i Hlog Hd Hi)) as Hn.
  assert (Hkn : knots_ok (VID_RANGE VIRIDIS) = true)
    by (unfold VID_RANGE; rewrite Hrows; apply knots_linspace256).
  assert (Hne : VID_RANGE VIRIDIS <> []).
  { intros H. apply (f_equal length) in H. by rewrite length_VID_RANGE, Hrows in H. }
  unfold ramp_color, in_unit3. cbn [fst snd].
  rewrite !interp1_in_unit; try done; by rewrite length_map, length_VID_RANGE.
Qed.

(** C2 (as the code has it).  On a payload of 16P bytes, with a ramp of
    256 rows, the intensity decoder returns and leaves exactly P
    positions and P colours, one per sample and in payload order, none
    filtered.  A colour is NaN in its three channels when the intensity
    is negative or NaN.  For every other intensity (zero, positive or
    plus infinity) the colour lies in [0,1] in its three channels,
    wherever the ramp coordinate falls, when the ramp passes [ramp_ok]
    (entries in [0,1], and on each segment the interpolation formula
    stays in [0,1] at the segment's end), the library's [logf] is never
    NaN at a positive finite argument and the divisor is negative and
    finite.  When the ramp entries lie in [0,1], a colour lies in [0,1]
    whenever the ramp coordinate of the intensity is at most 0 or at
    least 1; the coordinate of a zero intensity is minus infinity when
    the divisor is negative. *)
Theorem intensity_decoder_output (w : world) (P : nat) :
  length (raw_data w) = (16 * P)%nat ->
  length VIRIDIS = 256%nat ->
  exists w',
    callback w = inr w' /\
    let data := raw_samples (raw_data w) in
    length data = P /\
    points (point_list w') = map flip_x data /\
    colors (point_list w') = map (fun r => colour r.2) data /\
    length (points (point_list w')) = P /\
    length (colors (point_list w')) = P /\
    (forall i, negative_or_nan i = true -> colour i = nan3) /\
    (ramp_ok VIRIDIS = true ->
     (forall m e, is_nan (libm_logf m e) = false) ->
     negative_finite (f32_of_f64 (log_attenuation libm_exp libm_log)) = true ->
     forall i, negative_or_nan i = false -> in_unit3 (colour i) = true) /\
    (Forall (fun c => in_unit3 c = true) VIRIDIS ->
     forall i,
       F64.leb (f64_of_f32 (coordinate i)) F64.zero = true \/
       F64.leb F64.one (f64_of_f32 (coordinate i)) = true ->
       in_unit3 (colour i) = true) /\
    (negative_finite (f32_of_f64 (log_attenuation libm_exp libm_log)) = true ->
     forall i, is_zero i = true -> coordinate i = S754_infinity true).
Proof.
  intros Hlen Hrows.
  destruct (lidar_callback_returns w) as [flat Hret]; [lia | by destruct VIRIDIS |].
  eexists. split; [exact Hret|].
  cbv zeta. cbn [point_list points colors].
  pose proof (length_raw_samples _ _ Hlen) as HP.
  repeat split; try (by rewrite ?length_map).
  - intros i Hi. by apply ramp_color_nan.
  - intros Hok Hlog Hd i Hi. by apply ramp_color_in_unit.
  - intros Hramp i Hends. by apply ramp_color_ends.
  - intros Hd i Hi. by apply ramp_coordinate_of_zero_neg.
Qed.

(** C3 (as the code has it).  The intensity decoder has no fallback: the
    colour of every sample is interpolated at the ramp coordinate of its
    intensity as delivered.  For a zero intensity the logarithm is
    minus infinity and the coordinate handed to the interpolation is
    not finite; for a negative or NaN intensity the coordinate is NaN
    and so are the three channels of the colour. *)
Theorem intensity_is_not_clamped (w w' : world) :
  callback w = inr w' ->
  colors (point_list w') =
    map (fun r =>
           let t := f64_of_f32 (coordinate r.2) in
           (interp1 (VID_RANGE VIRIDIS) (map (fun c : vec3 => c.1.1) VIRIDIS) t,
            interp1 (VID_RANGE VIRIDIS) (map (fun c : vec3 => c.1.2) VIRIDIS) t,
            interp1 (VID_RANGE VIRIDIS) (map (fun c : vec3 => c.2) VIRIDIS) t))
        (raw_samples (raw_data w)) /\
  (forall i, is_zero i = true ->
     np_log libm_logf i = S754_infinity true /\ is_finite (coordinate i) = false) /\
  (forall i, negative_or_nan i = true ->
     coordinate i = S754_nan /\ colour i = nan3).
Proof.
  intros Hret.
  destruct (lidar_callback_cases w) as [Herr|[flat Hok]]; [congruence|].
  rewrite Hok in Hret. injection Hret as <-.
  split; [reflexivity|]. split.
  - apply ramp_coordinate_of_zero.
  - apply ramp_color_nan.
Qed.

(** C5. The intensity decoder negates the first component of every
    position and the semantic decoder the second one; a sample at
    (1, 2, 3) comes out at (-1, 2, 3) on the intensity path and at
    (1, -2, 3) on the semantic path. *)
Theorem axis_negation :
  (forall w w', callback w = inr w' ->
     points (point_list w') =
     map (fun r => (f64_of_f32 (F32.opp r.1.1.1), f64_of_f32 r.1.1.2, f64_of_f32 r.1.2))
         (raw_samples (raw_data w)))
  /\ (forall w w', semantic_lidar_callback w = inr w' ->
        points (point_list w') =
        map (fun s => (f64_of_f32 (x s), f64_of_f32 (F32.opp (y s)), f64_of_f32 (z s)))
            (List.filter (visible (actor_colors w)) (samples (raw_data w))))
  /\ (VIRIDIS <> [] ->
      points (point_list (deliver callback (initial_world ∅) intensity_payload)) =
      [(F64.opp F64.one, F64.of_Z 2, F64.of_Z 3)])
  /\ points (point_list (deliver semantic_lidar_callback (initial_world ∅) semantic_payload)) =
     [(F64.one, F64.opp (F64.of_Z 2), F64.of_Z 3)].
Proof.
  repeat split.
  - intros w w' Hret.
    destruct (lidar_callback_cases w) as [Herr|[flat Hok]]; [congruence|].
    rewrite Hok in Hret. by injection Hret as <-.
  - intros w w' Hret.
    destruct (semantic_lidar_callback_inv _ _ Hret) as [Hlen Htags].
    rewrite semantic_lidar_callback_returns in Hret by done.
    by injection Hret as <-.
  - intros Hramp. unfold deliver.
    edestruct lidar_callback_returns as [flat ->]; [|exact Hramp|]; reflexivity.
Qed.

(** C6. A payload whose length is not a multiple of the stride (16 bytes
    on the intensity path, 24 on the semantic path) makes the decoder
    raise [ValueError]; the point cloud keeps what it held. *)
Theorem malformed_length_raises (w : world) (payload : list Byte.byte) :
  ((length (raw_data w) mod 16 <> 0)%nat -> callback w = inl ValueError)
  /\ ((length (raw_data w) mod 24 <> 0)%nat -> semantic_lidar_callback w = inl ValueError)
  /\ ((length payload mod 16 <> 0)%nat ->
      point_list (deliver callback w payload) = point_list w)
  /\ ((length payload mod 24 <> 0)%nat ->
      point_list (deliver semantic_lidar_callback w payload) = point_list w).
Proof.
  repeat split.
  - intros Hlen. apply lidar_callback_raises. by left.
  - apply semantic_lidar_callback_value_error.
  - intros Hlen. unfold deliver. by rewrite lidar_callback_raises by by left.
  - intros Hlen. unfold deliver. by rewrite semantic_lidar_callback_value_error.
Qed.

(** C10. Neither decoder changes the payload it is given: after either
    callback the bytes of [raw_data] are what they were.  The intensity
    decoder negates in a fresh copy, so every array that existed before
    the call is unchanged as well; the semantic decoder writes no array
    at all. *)
Theorem payload_unchanged (w : world) :
  raw_data (after (callback w) w) = raw_data w
  /\ raw_data (after (semantic_lidar_callback w) w) = raw_data w
  /\ (forall a, (a < length (heap w))%nat ->
        heap (after (callback w) w) !! a = heap w !! a)
  /\ heap (after (semantic_lidar_callback w) w) = heap w.
Proof.
  repeat split.
  - destruct (lidar_callback_cases w) as [-> | [flat ->]]; reflexivity.
  - destruct (semantic_lidar_callback w) as [e|w'] eqn:Hret; [done|].
    by destruct (semantic_lidar_callback_frame _ _ Hret) as (H & _).
  - intros a Ha.
    destruct (lidar_callback_cases w) as [-> | [flat ->]]; [done|].
    cbn [after heap]. by rewrite lookup_app_l.
  - destruct (semantic_lidar_callback w) as [e|w'] eqn:Hret; [done|].
    by destruct (semantic_lidar_callback_frame _ _ Hret) as (_ & H & _).
Qed.

End IntensityDecoder.

(* ================================================================= *)
(** ** The actor colour table *)

Lemma assign_color_preserves rand st a k c :
  st.1 !! k = Some c -> (assign_color rand st a).1 !! k = Some c.
Proof.
  destruct st as [tbl n]. cbn [fst]. intros Hk. unfold assign_color.
  destruct (tbl !! a) eqn:Ha; [done|]. cbn [fst].
  rewrite lookup_insert_ne; [done|]. intros ->. congruence.
Qed.

Lemma assign_colors_preserve rand actors st k c :
  st.1 !! k = Some c -> (fold_left (assign_color rand) actors st).1 !! k = Some c.
Proof.
  revert st. induction actors as [|a actors IH]; intros st Hk; [done|].
  cbn [fold_left]. by apply IH, assign_color_preserves.
Qed.

Lemma deliver_semantic_table w payload :
  actor_colors (deliver semantic_lidar_callback w payload) = actor_colors w.
Proof.
  unfold deliver.
  destruct (semantic_lidar_callback _) as [e|w'] eqn:Hret; [done|].
  by destruct (semantic_lidar_callback_frame _ _ Hret) as (_ & _ & H).
Qed.

Lemma deliveries_semantic_table payloads w :
  actor_colors (fold_left (deliver semantic_lidar_callback) payloads w) = actor_colors w.
Proof.
  revert w. induction payloads as [|p payloads IH]; intros w; [done|].
  cbn [fold_left]. by rewrite IH, deliver_semantic_table.
Qed.

(** C8. An actor id that the loop of [main] has given a colour keeps it
    while the loop goes on; no delivery to the semantic decoder changes
    the table; and whenever a payload is decoded after any number of
    deliveries, every point left that carries the id has that colour. *)
Theorem actor_colors_stable (rand : nat -> vec3) (actors later : list Z) (k : Z) (c : vec3) :
  assign_actor_colors rand actors !! k = Some c ->
  assign_actor_colors rand (actors ++ later) !! k = Some c
  /\ (forall w payloads,
        actor_colors (fold_left (deliver semantic_lidar_callback) payloads w) = actor_colors w)
  /\ (forall w payloads payload,
        actor_colors w !! k = Some c ->
        (length payload mod 24 = 0)%nat ->
        Forall (fun s => ObjTag s < 29) (samples payload) ->
        let w1 := fold_left (deliver semantic_lidar_callback) payloads w in
        let w2 := deliver semantic_lidar_callback w1 payload in
        let kept := List.filter (visible (actor_colors w)) (samples payload) in
        points (point_list w2) = map flip_y kept /\
        colors (point_list w2) =
          map (fun s => if ObjIdx s =? k then c else resolved_color (actor_colors w) s) kept).
Proof.
  intros Hk. repeat split.
  - unfold assign_actor_colors. rewrite fold_left_app.
    by apply assign_colors_preserve.
  - intros w payloads. apply deliveries_semantic_table.
  - unfold deliver. rewrite semantic_lidar_callback_returns by done.
    cbn [after point_list points actor_colors raw_data].
    by rewrite deliveries_semantic_table.
  - unfold deliver. rewrite semantic_lidar_callback_returns by done.
    cbn [after point_list colors actor_colors raw_data].
    rewrite deliveries_semantic_table. apply map_ext. intros s.
    destruct (ObjIdx s =? k) eqn:Heq; [|done].
    apply Z.eqb_eq in Heq. unfold resolved_color. by rewrite Heq, H.
Qed.

(** Actors 7 and 9 get the first two draws; seeing actor 9 again changes
    nothing, and the decoded sample payload shows both colours. *)
Lemma actor_colors_stable_witness :
  assign_actor_colors sample_rand ([7; 9] ++ [9; 11]) !! 9 = Some (sample_rand 1)
  /\ colors (point_list
       (deliver semantic_lidar_callback
          (initial_world (assign_actor_colors sample_rand [7; 9])) semantic_payload)) =
     [sample_rand 0; sample_rand 1].
Proof.
  destruct (actor_colors_stable sample_rand [7; 9] [9; 11] 9 (sample_rand 1))
    as (Hkeep & _ & Hdecode); [reflexivity|].
  split; [exact Hkeep|].
  destruct (Hdecode (initial_world (assign_actor_colors sample_rand [7; 9])) [] semantic_payload)
    as [_ Hcolors]; [reflexivity | reflexivity | repeat constructor |].
  exact Hcolors.
Defined.

(* ================================================================= *)
(** ** The decoders on the sample payloads *)

(** The sample at (1, 2, 3) with intensity 0.5, under the stand-in
    library: its ramp coordinate is 0 and its colour the first ramp row.
    Under the second stand-in for [logf] its coordinate is strictly
    between 0 and 1, the sample ramp passes [ramp_ok], and the colour
    interpolated inside the ramp is in [0,1]. *)
Lemma intensity_decoder_output_witness :
  (exists w',
     lidar_callback sample_exp sample_log sample_logf sample_ramp
       (delivered ∅ intensity_payload) = inr w' /\
     points (point_list w') = [(F64.opp F64.one, F64.of_Z 2, F64.of_Z 3)] /\
     colors (point_list w') = [(F64.zero, F64.zero, F64.one)])
  /\ (let t := f64_of_f32 (intensity_col sample_exp sample_log sample_logf_quarter
                             (f32_of_bits bits_half)) in
      F64.ltb F64.zero t && F64.ltb t F64.one = true)
  /\ in_unit3 (ramp_color sample_exp sample_log sample_logf_quarter sample_ramp
                 (f32_of_bits bits_half)) = true.
Proof.
  split; [|split].
  - destruct (intensity_decoder_output sample_exp sample_log sample_logf sample_ramp
                (delivered ∅ intensity_payload) 1)
      as (w' & Hw' & _ & Hpoints & Hcolors & _); [reflexivity | reflexivity |].
    exists w'. split; [exact Hw'|]. split.
    + rewrite Hpoints. vm_compute. reflexivity.
    + rewrite Hcolors. vm_compute. reflexivity.
  - vm_compute. reflexivity.
  - destruct (intensity_decoder_output sample_exp sample_log sample_logf_quarter sample_ramp
                (delivered ∅ intensity_payload) 1)
      as (w' & _ & _ & _ & _ & _ & _ & _ & Hin & _); [reflexivity | reflexivity |].
    apply Hin; [vm_compute; reflexivity | reflexivity | reflexivity | reflexivity].
Defined.

(** The sample with intensity 0.0, under the stand-in library: its ramp
    coordinate is minus infinity and its colour the first ramp row. *)
Lemma intensity_is_not_clamped_witness :
  exists w',
    lidar_callback sample_exp sample_log sample_logf sample_ramp
      (delivered ∅ zero_intensity_payload) = inr w' /\
    intensity_col sample_exp sample_log sample_logf (S754_zero false) = S754_infinity true /\
    colors (point_list w') = [(F64.zero, F64.zero, F64.one)].
Proof.
  destruct (lidar_callback_returns sample_exp sample_log sample_logf sample_ramp
              (delivered ∅ zero_intensity_payload)) as [flat Hret];
    [reflexivity | discriminate |].
  eexists. split; [exact Hret|].
  destruct (intensity_is_not_clamped sample_exp sample_log sample_logf sample_ramp _ _ Hret)
    as (Hcolors & _ & _).
  split; [vm_compute; reflexivity|].
  rewrite Hcolors. vm_compute. reflexivity.
Defined.

(** C2, counterexample to the specification's wording: a payload of 16
    bytes whose intensity is -1.0 is decoded, whatever the C library and
    the ramp, into one colour that is NaN in every channel, and NaN is not
    in [0,1]. *)
Lemma negative_intensity_colour_is_nan :
  length negative_intensity_payload = 16%nat
  /\ map (fun r => r.2) (raw_samples negative_intensity_payload) = [S754_finite true 8388608 (-23)]
  /\ (forall libm_exp libm_log libm_logf VIRIDIS,
        VIRIDIS <> [] ->
        colors (point_list
          (deliver (lidar_callback libm_exp libm_log libm_logf VIRIDIS)
             (initial_world ∅) negative_intensity_payload)) = [nan3])
  /\ in_unit3 nan3 = false.
Proof.
  repeat split.
  intros libm_exp libm_log libm_logf VIRIDIS Hramp. unfold deliver.
  edestruct lidar_callback_returns as [flat ->]; [|exact Hramp|]; reflexivity.
Qed.

(** C3, counterexample to the specification's wording: a zero intensity
    reaches the logarithm as it is, and the ramp coordinate handed to the
    interpolation is not finite, whatever the C library. *)
Lemma zero_intensity_reaches_the_logarithm :
  map (fun r => r.2) (raw_samples zero_intensity_payload) = [S754_zero false]
  /\ (forall libm_logf, np_log libm_logf (S754_zero false) = S754_infinity true)
  /\ (forall libm_exp libm_log libm_logf,
        is_finite (intensity_col libm_exp libm_log libm_logf (S754_zero false)) = false)
  /\ (forall libm_exp libm_log libm_logf VIRIDIS,
        VIRIDIS <> [] ->
        colors (point_list
          (deliver (lidar_callback libm_exp libm_log libm_logf VIRIDIS)
             (initial_world ∅) zero_intensity_payload)) =
        [ramp_color libm_exp libm_log libm_logf VIRIDIS (S754_zero false)]).
Proof.
  repeat split.
  - intros libm_exp libm_log libm_logf.
    by apply ramp_coordinate_of_zero.
  - intros libm_exp libm_log libm_logf VIRIDIS Hramp. unfold deliver.
    edestruct lidar_callback_returns as [flat ->]; [|exact Hramp|]; reflexivity.
Qed.

(** The copy is what protects the payload: the same slice assignment made
    through the [np.frombuffer] view lands in the bytes of the payload. *)
Example negating_through_the_view_writes_the_payload :
  raw_data (set_col0 FromBuffer [F32.opp (f32_of_bits bits_1)] (delivered ∅ intensity_payload))
  = words [0xbf800000; bits_2; bits_3; bits_half].
Proof. vm_compute. reflexivity. Qed.

(** Payloads cut short: 20 bytes are five floats and no whole row of
    four, 17 bytes no whole number of floats, 40 bytes no whole number of
    semantic records. *)
Example truncated_payloads_raise :
  lidar_callback sample_exp sample_log sample_logf sample_ramp
    (delivered ∅ (intensity_payload ++ le_bytes32 bits_1)) = inl ValueError
  /\ lidar_callback sample_exp sample_log sample_logf sample_ramp
       (delivered ∅ (intensity_payload ++ [Byte.x00])) = inl ValueError
  /\ semantic_lidar_callback (delivered ∅ (take 40 semantic_payload)) = inl ValueError.
Proof. vm_compute. repeat split. Qed.

(* ================================================================= *)
(** ** Traces of the render loop *)

Lemma snapshots_app evs evs' : snapshots (evs ++ evs') = snapshots evs ++ snapshots evs'.
Proof. unfold snapshots. apply omap_app. Qed.

Lemma snapshots_loop_body record w st :
  snapshots (loop_body record w st).1 =
  if record && changed_significantly (previous_num_points st) (num_points (point_list w))
  then [(frame st, point_list w)] else [].
Proof.
  unfold loop_body, num_points. cbn [fst].
  destruct (frame st =? 2)%nat, (record && _); reflexivity.
Qed.

Lemma snapshots_run_snoc record ws w :
  snapshots (run record (ws ++ [w])).1 =
  snapshots (run record ws).1 ++
  (if record && changed_significantly (previous_num_points (run record ws).2)
                  (num_points (point_list w))
   then [(length ws, point_list w)] else []).
Proof.
  rewrite run_snoc. unfold iterate. cbn [fst].
  by rewrite snapshots_app, snapshots_loop_body, run_frame.
Qed.

Lemma previous_run_snoc record ws w :
  previous_num_points (run record (ws ++ [w])).2 =
  if record && changed_significantly (previous_num_points (run record ws).2)
                 (num_points (point_list w))
  then Some (num_points (point_list w)) else previous_num_points (run record ws).2.
Proof. rewrite run_snoc. reflexivity. Qed.

(** X1. Without [--record] no run ever writes a snapshot, and the
    reference count stays unset. *)
Theorem no_recording_no_snapshot (ws : list world) :
  snapshots (run false ws).1 = [] /\ previous_num_points (run false ws).2 = None.
Proof.
  induction ws as [|w ws [IHs IHp]] using rev_ind; [done|].
  by rewrite snapshots_run_snoc, previous_run_snoc, IHs, IHp.
Qed.

Lemma previous_is_last_snapshot record ws :
  previous_num_points (run record ws).2 =
  (fun s => num_points s.2) <$> last (snapshots (run record ws).1).
Proof.
  induction ws as [|w ws IH] using rev_ind; [done|].
  rewrite snapshots_run_snoc, previous_run_snoc.
  destruct (record && _).
  - by rewrite last_snoc.
  - by rewrite app_nil_r.
Qed.

(** X2. Every snapshot a run writes carries the index of the iteration
    that wrote it and the point cloud of the world that iteration ran in;
    the indices grow strictly, so no snapshot file is written twice. *)
Theorem snapshots_match_iterations (record : bool) (ws : list world) :
  Forall (fun s => exists w, ws !! s.1 = Some w /\ s.2 = point_list w)
         (snapshots (run record ws).1)
  /\ StronglySorted lt (map fst (snapshots (run record ws).1)).
Proof.
  induction ws as [|w ws [IHm IHs]] using rev_ind.
  - split; constructor.
  - rewrite snapshots_run_snoc. split.
    + apply Forall_app. split.
      * eapply Forall_impl; [exact IHm|]. intros s (w' & Hw' & Hs).
        exists w'. split; [|done]. by apply lookup_app_l_Some.
      * destruct (record && _); constructor; [|constructor].
        exists w. split; [|done]. cbn [fst]. by rewrite list_lookup_middle.
    + rewrite map_app.
      assert (Hlt : Forall (fun f => (f < length ws)%nat) (map fst (snapshots (run record ws).1))).
      { apply Forall_fmap. eapply Forall_impl; [exact IHm|].
        intros s (w' & Hw' & _). cbn. by apply lookup_lt_Some in Hw'. }
      destruct (record && _); cbn [map]; [|by rewrite app_nil_r].
      clear IHm. induction IHs as [|f fs Hfs IH Hall]; cbn.
      * repeat constructor.
      * apply Forall_cons in Hlt as [Hf Hlt]. constructor; [by apply IH|].
        apply Forall_app. split; [done|]. by constructor.
Qed.

(** X3. In a recording run two snapshots written one after the other
    differ by more than 100 points. *)
Theorem consecutive_snapshots_differ (ws : list world) (i : nat) (a b : nat * PointCloud) :
  snapshots (run true ws).1 !! i = Some a ->
  snapshots (run true ws).1 !! S i = Some b ->
  Z.abs (num_points b.2 - num_points a.2) > 100.
Proof.
  revert i a b. induction ws as [|w ws IH] using rev_ind; intros i a b; [done|].
  rewrite snapshots_run_snoc, (previous_is_last_snapshot true ws). cbn [andb].
  destruct (changed_significantly _ _) eqn:Hch; [|rewrite app_nil_r; apply IH].
  intros Ha Hb.
  destruct (decide (S i < length (snapshots (run true ws).1))%nat) as [Hin|Hout].
  - rewrite lookup_app_l in Ha by lia. rewrite lookup_app_l in Hb by lia. by eapply IH.
  - apply lookup_lt_Some in Hb as Hlen. rewrite length_app in Hlen. cbn in Hlen.
    assert (S i = length (snapshots (run true ws).1)) as Hi by lia.
    rewrite Hi, list_lookup_middle in Hb by done. injection Hb as <-.
    rewrite lookup_app_l in Ha by lia.
    rewrite last_lookup, <- Hi in Hch. cbn [Nat.pred] in Hch. rewrite Ha in Hch.
    cbn in Hch. unfold POINT_DIFF_THRESHOLD in Hch. cbn [snd]. lia.
Qed.

(** X4. A recording run always writes its first frame (index 0), and
    writes nothing else as long as every later point count stays within
    100 of the first one. *)
Theorem steady_cloud_one_snapshot (w0 : world) (ws : list world) :
  Forall (fun w => Z.abs (num_points (point_list w) - num_points (point_list w0)) <= 100) ws ->
  snapshots (run true (w0 :: ws)).1 = [(0%nat, point_list w0)]
  /\ previous_num_points (run true (w0 :: ws)).2 = Some (num_points (point_list w0)).
Proof.
  induction ws as [|w ws IH] using rev_ind; intros Hall; [done|].
  apply Forall_app in Hall as [Hws Hw]. apply Forall_inv in Hw.
  destruct (IH Hws) as [IHs IHp].
  rewrite app_comm_cons, snapshots_run_snoc, previous_run_snoc, IHs, IHp.
  cbn [andb changed_significantly]. unfold POINT_DIFF_THRESHOLD.
  replace (_ >? 100) with false by (symmetry; rewrite Z.gtb_ltb; apply Z.ltb_ge; lia).
  done.
Qed.

Lemma ticks_loop_body record w st : List.filter is_tick (loop_body record w st).1 = [tick].
Proof.
  unfold loop_body. cbn [fst].
  destruct (frame st =? 2)%nat, (record && _); reflexivity.
Qed.

(** X5. A run of [n] iterations ticks the simulator [n] times, leaves the
    frame counter at [n], and every iteration ends with the tick. *)
Theorem one_tick_per_iteration (record : bool) (ws : list world) :
  List.filter is_tick (run record ws).1 = repeat tick (length ws)
  /\ frame (run record ws).2 = length ws
  /\ (ws <> [] -> last (run record ws).1 = Some tick).
Proof.
  split; [|split; [apply run_frame|]].
  - induction ws as [|w ws IH] using rev_ind; [done|].
    rewrite run_snoc. unfold iterate. cbn [fst].
    rewrite List.filter_app, IH, ticks_loop_body, length_app. cbn [length].
    rewrite repeat_app. reflexivity.
  - destruct ws as [|w ws _] using rev_ind; [done|]. intros _.
    rewrite run_snoc. unfold iterate, loop_body. cbn [fst].
    rewrite !app_assoc. 
    change [poll_events; update_renderer; tick] with ([poll_events; update_renderer] ++ [tick]).
    rewrite !app_assoc. apply last_snoc.
Qed.

(* ================================================================= *)
(** ** The actor table, the palette and visibility *)

Lemma assign_colors_dom rand actors (st : gmap Z vec3 * nat) :
  dom (fold_left (assign_color rand) actors st).1 = dom st.1 ∪ list_to_set actors.
Proof.
  revert st. induction actors as [|a actors IH]; intros [tbl n].
  - cbn. set_solver.
  - cbn [fold_left list_to_set]. rewrite IH. unfold assign_color.
    destruct (tbl !! a) eqn:Ha; cbn [fst].
    + apply elem_of_dom_2 in Ha. set_solver.
    + rewrite dom_insert_L. set_solver.
Qed.

(** X6. The keys of the actor colour table are exactly the ids of the
    actors listed, however often an id is listed. *)
Theorem actor_table_keys (rand : nat -> vec3) (actors : list Z) :
  dom (assign_actor_colors rand actors) = list_to_set actors.
Proof.
  unfold assign_actor_colors. rewrite assign_colors_dom. cbn [fst].
  rewrite dom_empty_L. set_solver.
Qed.

Lemma assign_colors_fresh rand actors tbl n i a :
  NoDup actors ->
  Forall (fun b => tbl !! b = None) actors ->
  actors !! i = Some a ->
  (fold_left (assign_color rand) actors (tbl, n)).1 !! a = Some (rand (n + i)%nat).
Proof.
  revert tbl n i. induction actors as [|b actors IH]; intros tbl n i Hnd Hfresh Hi; [done|].
  apply NoDup_cons in Hnd as [Hb Hnd]. apply Forall_cons in Hfresh as [Hbnone Hfresh].
  cbn [fold_left]. unfold assign_color at 2. rewrite Hbnone.
  destruct i as [|i]; cbn in Hi.
  - injection Hi as ->. apply assign_colors_preserve. cbn [fst].
    rewrite lookup_insert_eq. f_equal. f_equal. lia.
  - replace (n + S i)%nat with (S n + i)%nat by lia.
    apply IH; [done| |done].
    rewrite Forall_forall in Hfresh |- *. intros c Hc.
    rewrite lookup_insert_ne; [by apply Hfresh|]. intros ->. done.
Qed.

(** X7. When the actor ids are distinct the [i]-th actor gets the [i]-th
    draw of the generator. *)
Theorem distinct_actors_get_successive_draws (rand : nat -> vec3) (actors : list Z) (i : nat) (a : Z) :
  NoDup actors ->
  actors !! i = Some a ->
  assign_actor_colors rand actors !! a = Some (rand i).
Proof.
  intros Hnd Hi. unfold assign_actor_colors.
  rewrite (assign_colors_fresh rand actors ∅ 0 i a); [done|done| |done].
  apply Forall_forall. intros b _. apply lookup_empty.
Qed.

Lemma le_uint_nonneg bs : 0 <= le_uint bs.
Proof.
  induction bs as [|b bs IH]; [done|].
  change (le_uint (b :: bs)) with (byte_val b + 256 * le_uint bs).
  unfold byte_val. lia.
Qed.

Lemma samples_tag_nonneg bs s : s ∈ samples bs -> 0 <= ObjTag s.
Proof.
  unfold samples. intros (it & -> & _)%list_elem_of_fmap. apply le_uint_nonneg.
Qed.

Lemma palette_black_entries t :
  0 <= t < 29 -> is_black (class_color t) = is_disabled t.
Proof.
  intros Ht. rewrite <- (Z2Nat.id t) by lia.
  assert (Z.to_nat t < 29)%nat as Hn by lia. revert Hn.
  generalize (Z.to_nat t). intros n Hn.
  do 29 (destruct n as [|n]; [vm_compute; reflexivity|]). lia.
Qed.

(** X8. Which samples the semantic decoder keeps: a sample whose actor is
    in the table is kept exactly when the actor's colour is not black,
    whatever its class; any other sample is kept exactly when its class
    tag is none of 0, 1, 2, 10, 11, 24, 26, 27. *)
Theorem visibility_rule (w w' : world) :
  semantic_lidar_callback w = inr w' ->
  points (point_list w') =
  map flip_y
    (List.filter
       (fun s => match actor_colors w !! ObjIdx s with
                 | Some c => negb (is_black c)
                 | None => negb (is_disabled (ObjTag s))
                 end)
       (samples (raw_data w))).
Proof.
  intros Hret. destruct (semantic_lidar_callback_inv _ _ Hret) as [Hlen Htags].
  rewrite semantic_lidar_callback_returns in Hret by done. injection Hret as <-.
  cbn [point_list points]. f_equal. apply List.filter_ext_in. intros s Hs.
  unfold visible, resolved_color. destruct (actor_colors w !! ObjIdx s); [done|].
  rewrite palette_black_entries; [done|]. split.
  - by apply (samples_tag_nonneg (raw_data w)), list_elem_of_In.
  - rewrite Forall_forall in Htags. by apply Htags, list_elem_of_In.
Qed.

Lemma palette_in_unit c : c ∈ LABEL_COLORS -> in_unit3 c = true.
Proof.
  intros Hc%list_elem_of_In. revert c Hc. apply forallb_forall.
  vm_compute. reflexivity.
Qed.

Lemma class_color_in_unit t : in_unit3 (class_color t) = true.
Proof.
  unfold class_color. destruct (LABEL_COLORS !! Z.to_nat t) as [c|] eqn:Hc; [|reflexivity].
  by apply palette_in_unit, (list_elem_of_lookup_2 _ (Z.to_nat t)).
Qed.

Lemma semantic_colours_in_unit_table (w w' : world) :
  map_Forall (fun _ c => in_unit3 c = true) (actor_colors w) ->
  semantic_lidar_callback w = inr w' ->
  Forall (fun c => in_unit3 c = true) (colors (point_list w')).
Proof.
  intros Htbl Hret. destruct (semantic_lidar_callback_inv _ _ Hret) as [Hlen Htags].
  rewrite semantic_lidar_callback_returns in Hret by done. injection Hret as <-.
  cbn [point_list colors]. apply Forall_fmap, Forall_forall. intros s _.
  cbn. unfold resolved_color. destruct (actor_colors w !! ObjIdx s) as [c|] eqn:Hc.
  - by apply (Htbl (ObjIdx s)).
  - apply class_color_in_unit.
Qed.

Lemma assign_colors_in_unit rand actors (st : gmap Z vec3 * nat) :
  (forall n, in_unit3 (rand n) = true) ->
  map_Forall (fun _ c => in_unit3 c = true) st.1 ->
  map_Forall (fun _ c => in_unit3 c = true) (fold_left (assign_color rand) actors st).1.
Proof.
  intros Hrand. revert st. induction actors as [|a actors IH]; intros [tbl n] Hst; [done|].
  cbn [fold_left]. apply IH. unfold assign_color.
  destruct (tbl !! a); [done|]. cbn [fst]. by apply map_Forall_insert_2.
Qed.

(** X9. When the table was filled from draws that lie in [0,1], every
    colour the semantic decoder leaves lies in [0,1] in its three
    channels. *)
Theorem semantic_colours_in_unit (rand : nat -> vec3) (actors : list Z) (w w' : world) :
  (forall n, in_unit3 (rand n) = true) ->
  actor_colors w = assign_actor_colors rand actors ->
  semantic_lidar_callback w = inr w' ->
  Forall (fun c => in_unit3 c = true) (colors (point_list w')).
Proof.
  intros Hrand Htbl Hret. apply (semantic_colours_in_unit_table w w'); [|done].
  rewrite Htbl. unfold assign_actor_colors. by apply assign_colors_in_unit.
Qed.

(* ================================================================= *)
(** ** Decoding payloads put end to end *)

Lemma items_app k n p1 p2 :
  (0 < k)%nat -> length p1 = (n * k)%nat ->
  items k (p1 ++ p2) = items k p1 ++ items k p2.
Proof.
  intros Hk Hlen. unfold items. rewrite length_app, Hlen.
  replace ((n * k + length p2) / k)%nat with (n + length p2 / k)%nat
    by (rewrite Nat.div_add_l by lia; lia).
  rewrite Nat.div_mul by lia.
  rewrite seq_app, map_app. f_equal.
  - apply map_ext_in. intros i Hi%in_seq. unfold item.
    rewrite drop_app_le by nia.
    rewrite take_app_le; [done|]. rewrite length_drop. nia.
  - replace (0 + n)%nat with (n + 0)%nat by lia.
    rewrite <- (fmap_add_seq n 0). change (map ?f (?g <$> ?l)) with (map f (map g l)).
    rewrite map_map. apply map_ext. intros j. unfold item.
    rewrite drop_app_ge by nia. f_equal. f_equal. nia.
Qed.

Lemma samples_app n p1 p2 :
  length p1 = (24 * n)%nat -> samples (p1 ++ p2) = samples p1 ++ samples p2.
Proof.
  intros Hlen. unfold samples.
  rewrite (items_app 24 n) by lia. apply map_app.
Qed.

Lemma rows4_app l1 l2 n :
  length l1 = (4 * n)%nat -> rows4 (l1 ++ l2) = rows4 l1 ++ rows4 l2.
Proof.
  revert l1. induction n as [|n IH]; intros l1 Hlen.
  - by destruct l1.
  - destruct l1 as [|a [|b [|c [|d l1]]]]; try (cbn in Hlen; lia).
    cbn [app rows4]. f_equal. apply IH. cbn in Hlen. lia.
Qed.

Lemma raw_samples_app n p1 p2 :
  length p1 = (16 * n)%nat -> raw_samples (p1 ++ p2) = raw_samples p1 ++ raw_samples p2.
Proof.
  intros Hlen. unfold raw_samples, f4_items.
  rewrite (items_app 4 (4 * n)) by lia. rewrite map_app.
  apply (rows4_app _ _ n). rewrite length_map, length_items, Hlen. lia.
Qed.

(** X10. The semantic decoder works record by record: the cloud of two
    payloads put end to end is the cloud of the first followed by the
    cloud of the second, and the cloud of the empty payload is empty. *)
Theorem semantic_decode_concat (w : world) (p1 p2 : list Byte.byte) :
  (length p1 mod 24 = 0)%nat -> (length p2 mod 24 = 0)%nat ->
  Forall (fun s => ObjTag s < 29) (samples p1) ->
  Forall (fun s => ObjTag s < 29) (samples p2) ->
  let cloud p := point_list (deliver semantic_lidar_callback w p) in
  points (cloud (p1 ++ p2)) = points (cloud p1) ++ points (cloud p2) /\
  colors (cloud (p1 ++ p2)) = colors (cloud p1) ++ colors (cloud p2) /\
  cloud [] = {| points := []; colors := [] |}.
Proof.
  intros H1 H2 T1 T2. cbv zeta. unfold deliver.
  assert (Happ : samples (p1 ++ p2) = samples p1 ++ samples p2).
  { apply (samples_app (length p1 / 24)). lia. }
  rewrite !semantic_lidar_callback_returns; cbn [raw_data]; try done.
  - cbn [after point_list points colors actor_colors raw_data].
    rewrite Happ, List.filter_app, !map_app. done.
  - rewrite length_app. lia.
  - rewrite Happ. by apply Forall_app.
Qed.

Section IntensityConcat.
Variable libm_exp : spec_float -> spec_float.
Variable libm_log : positive -> Z -> spec_float.
Variable libm_logf : positive -> Z -> spec_float.
Variable VIRIDIS : list vec3.

Lemma deliver_lidar_cloud w p :
  (length p mod 16 = 0)%nat -> VIRIDIS <> [] ->
  point_list (deliver (lidar_callback libm_exp libm_log libm_logf VIRIDIS) w p) =
  {| points := map flip_x (raw_samples p);
     colors := map (fun r => ramp_color libm_exp libm_log libm_logf VIRIDIS r.2) (raw_samples p) |}.
Proof.
  intros Hlen Hramp. unfold deliver.
  edestruct lidar_callback_returns as [flat ->]; [|exact Hramp|]; [exact Hlen|reflexivity].
Qed.

(** X11. The intensity decoder works sample by sample: the cloud of two
    payloads put end to end is the cloud of the first followed by the
    cloud of the second, and the cloud of the empty payload is empty. *)
Theorem intensity_decode_concat (w : world) (p1 p2 : list Byte.byte) :
  (length p1 mod 16 = 0)%nat -> (length p2 mod 16 = 0)%nat -> VIRIDIS <> [] ->
  let cloud p := point_list (deliver (lidar_callback libm_exp libm_log libm_logf VIRIDIS) w p) in
  points (cloud (p1 ++ p2)) = points (cloud p1) ++ points (cloud p2) /\
  colors (cloud (p1 ++ p2)) = colors (cloud p1) ++ colors (cloud p2) /\
  cloud [] = {| points := []; colors := [] |}.
Proof.
  intros H1 H2 Hramp. cbv beta zeta.
  rewrite !deliver_lidar_cloud; try done; [|rewrite length_app; lia].
  cbn [points colors].
  rewrite (raw_samples_app (length p1 / 16)) by lia.
  by rewrite !map_app.
Qed.
End IntensityConcat.

(* ================================================================= *)
(** ** The blueprint and the tear-down *)

Ltac not_among :=
  let H := fresh in
  intros H; repeat (apply elem_of_cons in H as [H|H]; [discriminate H|]);
  by apply elem_of_nil in H.

Ltac among := repeat first [apply list_elem_of_here | apply list_elem_of_further].

(** X12. [generate_lidar_bp] sets no attribute twice.  The plain sensor
    with noise gets [noise_stddev = 0.2] and no drop-off attribute; the
    plain sensor with [--no-noise] gets [dropoff_general_rate = 0.0],
    [dropoff_intensity_limit = 1.0] and [dropoff_zero_intensity = 0.0]
    and no [noise_stddev]; the semantic sensor gets none of the four,
    whatever [--no-noise] says.  In every mode these are followed by the
    six common attributes, and with [delta = 0.05] the rotation frequency
    is 20. *)
Theorem lidar_blueprint_modes (str_float : spec_float -> string) (str_int : Z -> string)
    (arg : Namespace) (d : spec_float) :
  let bp := generate_lidar_bp str_float str_int arg d in
  let keys := map fst (attributes bp) in
  let common :=
    [("upper_fov", str_float (upper_fov arg)); ("lower_fov", str_float (lower_fov arg));
     ("channels", str_float (channels arg)); ("range", str_float (range arg));
     ("rotation_frequency", str_float (F64.div F64.one d));
     ("points_per_second", str_int (points_per_second arg))] in
  NoDup keys
  /\ (blueprint_id bp = if semantic arg then "sensor.lidar.ray_cast_semantic"
                        else "sensor.lidar.ray_cast")
  /\ ("noise_stddev" ∈ keys <-> semantic arg = false /\ no_noise arg = false)
  /\ ("dropoff_general_rate" ∈ keys <-> semantic arg = false /\ no_noise arg = true)
  /\ ("dropoff_intensity_limit" ∈ keys <-> semantic arg = false /\ no_noise arg = true)
  /\ ("dropoff_zero_intensity" ∈ keys <-> semantic arg = false /\ no_noise arg = true)
  /\ attributes bp =
     (if semantic arg then []
      else if no_noise arg then
        [("dropoff_general_rate", "0.0"); ("dropoff_intensity_limit", "1.0");
         ("dropoff_zero_intensity", "0.0")]
      else [("noise_stddev", "0.2")]) ++ common
  /\ F64.div F64.one delta = F64.of_Z 20.
Proof.
  cbv zeta. unfold generate_lidar_bp.
  destruct (semantic arg), (no_noise arg); cbn;
    repeat match goal with
           | |- _ /\ _ => split
           | |- _ <-> _ => split
           | |- NoDup _ => repeat (apply NoDup_cons; split; [not_among|]); apply NoDup_nil
           | |- _ ∈ _ -> _ => not_among
           | |- _ /\ _ -> _ => intros [? ?]; discriminate
           | |- _ -> _ ∈ _ => intros _; among
           | |- _ ∈ _ -> _ /\ _ => intros _; done
           | |- _ = _ => reflexivity
           | |- True => exact I
           end.
Qed.


(** X14. When the first [k] statements of the [try] block completed and
    the next one raises, the [finally] block runs only as far as the
    locals bound by then allow.  [original_settings] is bound by the 1st
    statement, [traffic_manager] by the 3rd, [vehicle] by the 13th,
    [lidar] by the 18th and [vis] by the 21st: once the 21st statement
    completed (k >= 21) the whole tear-down runs and the exception goes
    on; earlier, the tear-down stops at the first unbound local and
    [main] ends with its [UnboundLocalError] instead (a failed vehicle
    spawn, k = 12, restores the settings and synchronous mode and then
    fails on [vehicle]; a failure of statements 14 to 18 destroys the
    vehicle and fails on [lidar]; one of statements 19 to 21 destroys the
    sensor too and fails on [vis]). *)
Theorem teardown_after_setup_failure (arg : Namespace) (k : nat) :
  main_try arg (raised_in_setup k) =
  ((if (k <? 1)%nat then []
    else if (k <? 3)%nat then [world_apply_settings_original]
    else if (k <? 13)%nat then [world_apply_settings_original; set_synchronous_mode false]
    else if (k <? 18)%nat then
      [world_apply_settings_original; set_synchronous_mode false; vehicle_destroy]
    else if (k <? 21)%nat then
      [world_apply_settings_original; set_synchronous_mode false; vehicle_destroy;
       lidar_destroy]
    else
      [world_apply_settings_original; set_synchronous_mode false; vehicle_destroy;
       lidar_destroy; destroy_window]),
   if (k <? 1)%nat then UnboundLocalError original_settings
   else if (k <? 3)%nat then UnboundLocalError traffic_manager
   else if (k <? 13)%nat then UnboundLocalError vehicle
   else if (k <? 18)%nat then UnboundLocalError lidar
   else if (k <? 21)%nat then UnboundLocalError vis
   else original_exception).
Proof.
  unfold main_try, completed, loop_calls, setup.
  do 30 (destruct k as [|k]; [reflexivity|]); reflexivity.
Qed.

(* ================================================================= *)
(** ** Nothing of the previous frame survives *)

(** X15. The cloud a payload leaves depends on the payload (and, on the
    semantic path, on the actor table) only: delivered in any two worlds
    it leaves the same point cloud, whatever the cloud, the arrays and
    the payload those worlds held before. *)
Theorem cloud_replaced_wholesale :
  (forall w1 w2 payload,
     actor_colors w1 = actor_colors w2 ->
     (length payload mod 24 = 0)%nat ->
     Forall (fun s => ObjTag s < 29) (samples payload) ->
     point_list (deliver semantic_lidar_callback w1 payload) =
     point_list (deliver semantic_lidar_callback w2 payload))
  /\ (forall libm_exp libm_log libm_logf VIRIDIS w1 w2 payload,
        (length payload mod 16 = 0)%nat ->
        VIRIDIS <> [] ->
        point_list (deliver (lidar_callback libm_exp libm_log libm_logf VIRIDIS) w1 payload) =
        point_list (deliver (lidar_callback libm_exp libm_log libm_logf VIRIDIS) w2 payload)).
Proof.
  split.
  - intros w1 w2 payload Htbl Hlen Htags. unfold deliver.
    rewrite !semantic_lidar_callback_returns by done.
    cbn [after point_list actor_colors raw_data]. by rewrite Htbl.
  - intros libm_exp libm_log libm_logf VIRIDIS w1 w2 payload Hlen Hramp.
    by rewrite !deliver_lidar_cloud.
Qed.

(* ================================================================= *)
(** ** The properties above on sample runs and payloads *)

(** Point counts 0, 50, 150: the second frame is skipped, the third is
    written. *)
Lemma consecutive_snapshots_differ_witness :
  Z.abs (num_points (point_list (world_with_points 150)) -
         num_points (point_list (world_with_points 0))) > 100.
Proof.
  apply (consecutive_snapshots_differ
           [world_with_points 0; world_with_points 50; world_with_points 150] 0
           (0%nat, point_list (world_with_points 0))
           (2%nat, point_list (world_with_points 150))); reflexivity.
Defined.

(** Point counts 200, then 250, 120 and 300: one snapshot. *)
Lemma steady_cloud_one_snapshot_witness :
  snapshots (run true [world_with_points 200; world_with_points 250;
                       world_with_points 120; world_with_points 300]).1 =
    [(0%nat, point_list (world_with_points 200))]
  /\ previous_num_points (run true [world_with_points 200; world_with_points 250;
                                    world_with_points 120; world_with_points 300]).2 =
     Some (num_points (point_list (world_with_points 200))).
Proof.
  apply (steady_cloud_one_snapshot (world_with_points 200)
           [world_with_points 250; world_with_points 120; world_with_points 300]).
  repeat constructor; vm_compute; discriminate.
Defined.

Lemma distinct_actors_get_successive_draws_witness :
  assign_actor_colors sample_rand [7; 9; 11] !! 11 = Some (sample_rand 2).
Proof.
  apply (distinct_actors_get_successive_draws sample_rand [7; 9; 11] 2 11);
    [compute_done | reflexivity].
Defined.

(** The sample records under a table that knows actor 9 in red: the car
    and the road point of actor 9 are kept. *)
Lemma visibility_rule_witness :
  exists w',
    semantic_lidar_callback (delivered {[9 := red]} semantic_payload) = inr w' /\
    length (points (point_list w')) = 2%nat.
Proof.
  pose proof (semantic_lidar_callback_returns (delivered {[9 := red]} semantic_payload)
                ltac:(reflexivity) ltac:(repeat constructor)) as Hret.
  eexists. split; [exact Hret|].
  rewrite (visibility_rule _ _ Hret). reflexivity.
Defined.

Lemma semantic_colours_in_unit_witness :
  exists w',
    semantic_lidar_callback
      (delivered (assign_actor_colors (fun _ => red) [9]) semantic_payload) = inr w' /\
    Forall (fun c => in_unit3 c = true) (colors (point_list w')).
Proof.
  pose proof (semantic_lidar_callback_returns
                (delivered (assign_actor_colors (fun _ => red) [9]) semantic_payload)
                ltac:(reflexivity) ltac:(repeat constructor)) as Hret.
  eexists. split; [exact Hret|].
  eapply (semantic_colours_in_unit (fun _ => red) [9]);
    [intros n; reflexivity | | exact Hret]. reflexivity.
Defined.

Lemma semantic_decode_concat_witness :
  points (point_list (deliver semantic_lidar_callback (initial_world {[9 := red]})
                        (semantic_payload ++ semantic_payload))) =
  points (point_list (deliver semantic_lidar_callback (initial_world {[9 := red]})
                        semantic_payload)) ++
  points (point_list (deliver semantic_lidar_callback (initial_world {[9 := red]})
                        semantic_payload)).
Proof.
  destruct (semantic_decode_concat (initial_world {[9 := red]})
              semantic_payload semantic_payload) as (Hpoints & _);
    [reflexivity | reflexivity | repeat constructor | repeat constructor |].
  exact Hpoints.
Defined.

Lemma intensity_decode_concat_witness :
  points (point_list
            (deliver (lidar_callback sample_exp sample_log sample_logf sample_ramp)
               (initial_world ∅) (intensity_payload ++ zero_intensity_payload))) =
  points (point_list
            (deliver (lidar_callback sample_exp sample_log sample_logf sample_ramp)
               (initial_world ∅) intensity_payload)) ++
  points (point_list
            (deliver (lidar_callback sample_exp sample_log sample_logf sample_ramp)
               (initial_world ∅) zero_intensity_payload)).
Proof.
  destruct (intensity_decode_concat sample_exp sample_log sample_logf sample_ramp
              (initial_world ∅) intensity_payload zero_intensity_payload) as (Hpoints & _);
    [reflexivity | reflexivity | discriminate |].
  exact Hpoints.
Defined.
